(** * NodeJs-FileManager: the command loop of [src/index.js]

    A shallow embedding of the interactive file manager and the proofs
    of the properties its specification states about it.

    Conventions of the model.
    - A JavaScript string is a [string]: a sequence of code units, taken
      in the range 0..255.  [undefined] is [None] in an [option string].
    - The host file system is a finite map from absolute, normalised
      POSIX paths to nodes (a regular file with its bytes, or a
      directory); the root ["/"] is always a directory.  Permissions,
      symbolic links and other node kinds are outside the model.
    - Each input line is handled to completion before the next one is
      read (the handlers of two lines are not interleaved), as when the
      lines are typed one by one at a terminal.
    - What the host provides and the program only calls (the digest,
      the Brotli codec, the collation order, the OS facts) is a record
      of the model, [Host]; so is what the program leaves to the host:
      which of two opens that are under way at once is done first.
    - A computation ends by returning, by throwing (which a [try]
      catches), by an uncaught ['error'] event of a stream, or by
      [process.exit]; it may also return or throw while such an event
      is still to come, which then ends the process once the handler
      has run to its end.  The handling of a line ends at the prompt,
      by an exit, by a rejection nothing handles, or by a crash. *)

From Stdlib Require Import String Ascii List Bool Arith Lia DecimalString.
From stdpp Require Import gmap strings list fin_maps.

Local Open Scope string_scope.
Local Open Scope list_scope.

(** ** JavaScript string primitives used by the program *)

Module JS.

Definition chars (s : string) : list ascii := list_ascii_of_string s.
Definition str (l : list ascii) : string := string_of_list_ascii l.

(** The class [\s] of regular expressions, which is also what
    [String.prototype.trim] strips, on code units below 256: TAB, LF,
    VT, FF, CR, SPACE and NO-BREAK SPACE. *)
Definition is_space (c : ascii) : bool :=
  let n := nat_of_ascii c in
  (Nat.leb 9 n && Nat.leb n 13) || Nat.eqb n 32 || Nat.eqb n 160.

(** The double quote, code unit 34; it is written [Q] in the comments
    on regular expressions below. *)
Definition quote : ascii := "034"%char.

Definition is_quote (c : ascii) : bool := Ascii.eqb c quote.

Fixpoint drop_spaces (l : list ascii) : list ascii :=
  match l with
  | c :: l' => if is_space c then drop_spaces l' else l
  | [] => []
  end.

(** [s.trim()] *)
Definition trim (s : string) : string :=
  str (rev (drop_spaces (rev (drop_spaces (chars s))))).

(** [s.startsWith(p)] *)
Definition startsWith (s p : string) : bool := String.prefix p s.

(** [s.split(sep)] for a separator of one code unit. *)
Fixpoint split_on (sep : ascii) (l : list ascii) : list (list ascii) :=
  match l with
  | [] => [[]]
  | c :: l' =>
      if Ascii.eqb c sep then [] :: split_on sep l'
      else match split_on sep l' with
           | seg :: segs => (c :: seg) :: segs
           | [] => [[c]]
           end
  end.

Definition split (sep : ascii) (s : string) : list string :=
  map str (split_on sep (chars s)).

(** [xs.join(sep)] *)
Fixpoint join (sep : string) (xs : list string) : string :=
  match xs with
  | [] => ""
  | [x] => x
  | x :: xs' => x +:+ sep +:+ join sep xs'
  end.

(** [xs.find(p)]; [None] is [undefined]. *)
Definition find {A} (p : A -> bool) (xs : list A) : option A := List.find p xs.

End JS.

(** ** [node:path], POSIX flavour *)

Module Path.

Definition slash : ascii := "/"%char.

Definition is_absolute (p : string) : bool :=
  match p with
  | String c _ => Ascii.eqb c slash
  | EmptyString => false
  end.

(** One segment of [normalizeString]: the stack [res] holds the
    segments kept so far, last one first. *)
Definition norm_step (allowAboveRoot : bool) (res : list string) (seg : string)
  : list string :=
  if String.eqb seg "" || String.eqb seg "." then res
  else if String.eqb seg ".." then
    match res with
    | last :: res' =>
        if String.eqb last ".." then (if allowAboveRoot then seg :: res else res)
        else res'
    | [] => if allowAboveRoot then [seg] else []
    end
  else seg :: res.

(** [normalizeString(path, allowAboveRoot, '/', isPosixPathSeparator)] *)
Definition normalizeString (path : string) (allowAboveRoot : bool) : string :=
  JS.join "/" (rev (fold_left (norm_step allowAboveRoot) (JS.split slash path) [])).

(** The loop of [path.resolve]: the arguments are visited from the
    last one backwards, then the working directory, until an absolute
    one is met.  An argument is validated when it is visited:
    [undefined] raises a [TypeError], here [None]. *)
Fixpoint resolve_loop (rev_args : list (option string)) (cwd : string)
    (resolvedPath : string) : option (string * bool) :=
  match rev_args with
  | [] =>
      if String.eqb cwd "" then Some (resolvedPath, false)
      else Some (cwd +:+ "/" +:+ resolvedPath, is_absolute cwd)
  | None :: _ => None
  | Some p :: rest =>
      if String.eqb p "" then resolve_loop rest cwd resolvedPath
      else
        let resolvedPath' := p +:+ "/" +:+ resolvedPath in
        if is_absolute p then Some (resolvedPath', true)
        else resolve_loop rest cwd resolvedPath'
  end.

(** [path.resolve(...args)] with [process.cwd()] given. *)
Definition resolve (cwd : string) (args : list (option string)) : option string :=
  match resolve_loop (rev args) cwd "" with
  | None => None
  | Some (resolvedPath, resolvedAbsolute) =>
      let n := normalizeString resolvedPath (negb resolvedAbsolute) in
      Some (if resolvedAbsolute then "/" +:+ n
            else if String.eqb n "" then "." else n)
  end.

(** The backwards scan of [path.dirname] over the code units of
    index [>= 1], last one first: the units before the separator that
    ends the scan, if there is one. *)
Fixpoint dirname_scan (l : list ascii) (matchedSlash : bool)
  : option (list ascii) :=
  match l with
  | [] => None
  | c :: l' =>
      if Ascii.eqb c slash then
        if matchedSlash then dirname_scan l' true else Some l'
      else dirname_scan l' false
  end.

(** [path.dirname(path)] *)
Definition dirname (path : string) : string :=
  match path with
  | EmptyString => "."
  | String c0 tl =>
      let hasRoot := Ascii.eqb c0 slash in
      match dirname_scan (rev (JS.chars tl)) true with
      | None => if hasRoot then "/" else "."
      | Some before =>
          if hasRoot && Nat.eqb (length before) 0 then "//"
          else String c0 (JS.str (rev before))
      end
  end.

Fixpoint drop_slashes (l : list ascii) : list ascii :=
  match l with
  | c :: l' => if Ascii.eqb c slash then drop_slashes l' else l
  | [] => []
  end.

Fixpoint take_segment (l : list ascii) : list ascii :=
  match l with
  | c :: l' => if Ascii.eqb c slash then [] else c :: take_segment l'
  | [] => []
  end.

(** [path.basename(path)]: the trailing separators are skipped, then
    the last segment is taken. *)
Definition basename (path : string) : string :=
  JS.str (rev (take_segment (drop_slashes (rev (JS.chars path))))).

End Path.

(** ** What the program prints *)

(** One line of [console] output, or one write to [process.stdout]. *)
Inductive output : Type :=
| Log (s : string)
    (** [console.log(s)] *)
| LogJson (s : string)
    (** [console.log(JSON.stringify(s))] *)
| Stdout (bytes : string)
    (** [process.stdout.write] of these bytes of a file, decoded as UTF-8 *)
| Table (rows : list (string * string))
    (** [console.table] of the rows [{ Name, Type }] *)
| CpuLine (index : nat) (model : string) (speed : N)
    (** [console.log(`CPU ${index}: ${model}, ${speed / 1000} GHz`)] *)
| Prompt
    (** [rl.prompt()] *).

(** ** The file system *)

Inductive node : Type :=
| File (content : string)
| Dir.

#[global] Instance node_eq_dec : EqDecision node.
Proof. solve_decision. Defined.

Module Fs.

(** What is at [p]. *)
Definition lookup (fs : gmap string node) (p : string) : option node :=
  if String.eqb p "/" then Some Dir else fs !! p.

Definition is_dir (fs : gmap string node) (p : string) : bool :=
  match lookup fs p with Some Dir => true | _ => false end.

(** [fs.existsSync(p)] *)
Definition existsSync (fs : gmap string node) (p : string) : bool :=
  match lookup fs p with Some _ => true | None => false end.

(** The directory that holds the entry [p], for a normalised [p]. *)
Definition parent (p : string) : string := Path.dirname p.

(** [open(p, O_WRONLY | O_CREAT | O_TRUNC)], the flag ['w'] of
    [fs.writeFileSync] and [fs.createWriteStream]: a regular file at
    [p] is emptied, a missing one is created when its directory
    exists; it fails on a directory and under a missing directory. *)
Definition open_w (fs : gmap string node) (p : string) : option (gmap string node) :=
  match lookup fs p with
  | Some Dir => None
  | Some (File _) => Some (<[p := File ""]> fs)
  | None => if is_dir fs (parent p) then Some (<[p := File ""]> fs) else None
  end.

(** [fs.writeFileSync(p, data)] *)
Definition writeFileSync (fs : gmap string node) (p data : string)
  : option (gmap string node) :=
  match open_w fs p with
  | Some fs' => Some (<[p := File data]> fs')
  | None => None
  end.

(** [fs.mkdirSync(p)], not recursive. *)
Definition mkdirSync (fs : gmap string node) (p : string) : option (gmap string node) :=
  match lookup fs p with
  | Some _ => None
  | None => if is_dir fs (parent p) then Some (<[p := Dir]> fs) else None
  end.

(** [fs.unlinkSync(p)] *)
Definition unlinkSync (fs : gmap string node) (p : string) : option (gmap string node) :=
  match lookup fs p with
  | Some (File _) => Some (delete p fs)
  | _ => None
  end.

(** The bytes a read stream on [p] delivers; [None] when it emits
    ['error'] (nothing at [p], or a directory). *)
Definition read (fs : gmap string node) (p : string) : option string :=
  match lookup fs p with
  | Some (File c) => Some c
  | _ => None
  end.

(** [p] lies strictly below the directory [d]. *)
Definition under (d p : string) : bool :=
  String.prefix (if String.eqb d "/" then "/" else d +:+ "/") p
  && negb (String.eqb p d).

Definition has_entries (fs : gmap string node) (d : string) : bool :=
  existsb (fun kn => under d (fst kn)) (map_to_list fs).

(** The place of [k] once the tree at [old] is at [new]. *)
Definition rekey (old new k : string) : string :=
  if String.eqb k old then new
  else if under old k
       then new +:+ String.substring (String.length old)
                      (String.length k - String.length old) k
       else k.

Definition move_tree (fs : gmap string node) (old new : string) : gmap string node :=
  list_to_map (map (fun kn => (rekey old new (fst kn), snd kn))
                   (map_to_list (delete new fs))).

(** [fs.renameSync(old, new)]: a file replaces a file, a directory
    replaces an empty directory and cannot go below itself; the
    directory that is to hold a new entry must exist. *)
Definition renameSync (fs : gmap string node) (old new : string)
  : option (gmap string node) :=
  match lookup fs old with
  | None => None
  | Some n =>
      if String.eqb old "/" then None
      else if String.eqb old new then Some fs
      else
        match n, lookup fs new with
        | File _, Some Dir => None
        | File c, Some (File _) => Some (<[new := File c]> (delete old fs))
        | File c, None =>
            if is_dir fs (parent new)
            then Some (<[new := File c]> (delete old fs)) else None
        | Dir, Some (File _) => None
        | Dir, Some Dir =>
            if has_entries fs new || under old new then None
            else Some (move_tree fs old new)
        | Dir, None =>
            if under old new || negb (is_dir fs (parent new)) then None
            else Some (move_tree fs old new)
        end
  end.

(** [fs.readdirSync(d, { withFileTypes: true })]: the name and the
    node of every entry of [d]. *)
Definition readdirSync (fs : gmap string node) (d : string)
  : option (list (string * node)) :=
  if is_dir fs d
  then Some (map (fun kn => (Path.basename (fst kn), snd kn))
               (filter (fun kn => String.eqb (parent (fst kn)) d
                                  && negb (String.eqb (fst kn) "/"))
                  (map_to_list fs)))
  else None.

End Fs.

(** ** The program state and its effects *)

Record state : Type := {
  currentDir : string;         (** [let currentDir] *)
  disk : gmap string node;     (** the host file system *)
  console : list output        (** what was printed so far, oldest first *)
}.

(** What the program reads from its environment, and what it leaves
    to it. *)
Record Host : Type := {
  argv : list string;                (** [process.argv.slice(2)] *)
  homedir : string;                  (** [os.homedir()] *)
  cwd : string;                      (** [process.cwd()] *)
  EOL : string;                      (** [os.EOL] *)
  cpus : list (string * N);          (** [os.cpus()]: model and speed *)
  userInfo_username : string;        (** [os.userInfo().username] *)
  arch : string;                     (** [process.arch] *)
  sha256_hex : string -> string;
    (** [crypto.createHash('sha256')], updated with the bytes, as hex *)
  brotliCompress : string -> string;
    (** what [zlib.createBrotliCompress()] lets through *)
  brotliDecompress : string -> option string;
    (** what [zlib.createBrotliDecompress()] lets through; [None] when
        the stream emits ['error'] *)
  localeCompare : string -> string -> comparison;
    (** [a.localeCompare(b)]: negative, zero or positive *)
  write_opens_first : state -> string -> string -> bool
    (** when a read stream on the first path and a write stream on the
        second have just been created, in this state, and their two
        opens are under way at once: whether the open of the write
        stream is done first *)
}.

(** How a computation ends. *)
Inductive result (A : Type) : Type :=
| Ok (a : A)
| Throw
    (** an exception, or the rejection of an awaited promise: a
        [try]/[catch] around it catches it *)
| Fatal
    (** an ['error'] event on a stream with no ['error'] listener: it is
        thrown from the event loop, outside every [try], and ends the
        process *)
| Exit (code : Z)
    (** [process.exit(code)] *)
| Doomed (a : A)
    (** returned, while an ['error'] event with no listener is still to
        be delivered: the process ends when the handler has run to its
        end *)
| ThrowDoomed
    (** thrown or rejected, likewise *).
Arguments Ok {A} a.
Arguments Throw {A}.
Arguments Fatal {A}.
Arguments Exit {A} code.
Arguments Doomed {A} a.
Arguments ThrowDoomed {A}.

Definition M (A : Type) : Type := state -> result A * state.

Definition ret {A} (a : A) : M A := fun st => (Ok a, st).

(** What the end of a computation is when an ['error'] event with no
    listener is still to be delivered. *)
Definition doomed {A} (r : result A * state) : result A * state :=
  match r with
  | (Ok a, st) => (Doomed a, st)
  | (Throw, st) => (ThrowDoomed, st)
  | r => r
  end.

Definition bind {A B} (m : M A) (k : A -> M B) : M B :=
  fun st =>
    match m st with
    | (Ok a, st') => k a st'
    | (Throw, st') => (Throw, st')
    | (Fatal, st') => (Fatal, st')
    | (Exit code, st') => (Exit code, st')
    | (Doomed a, st') => doomed (k a st')
    | (ThrowDoomed, st') => (ThrowDoomed, st')
    end.

Notation "x <- m ;; k" := (bind m (fun x => k))
  (at level 100, m at next level, right associativity).
Notation "m ;; k" := (bind m (fun _ => k))
  (at level 100, right associativity).

Definition throw {A} : M A := fun st => (Throw, st).

(** Lifts a call that either returns or throws. *)
Definition or_throw {A} (o : option A) : M A :=
  match o with Some a => ret a | None => throw end.

Definition get_currentDir : M string := fun st => (Ok (currentDir st), st).
Definition set_currentDir (d : string) : M unit :=
  fun st => (Ok tt, {| currentDir := d; disk := disk st; console := console st |}).
Definition get_disk : M (gmap string node) := fun st => (Ok (disk st), st).
Definition set_disk (fs : gmap string node) : M unit :=
  fun st => (Ok tt, {| currentDir := currentDir st; disk := fs; console := console st |}).
Definition emit (o : output) : M unit :=
  fun st => (Ok tt, {| currentDir := currentDir st; disk := disk st;
                       console := console st ++ [o] |}).
Definition console_log (s : string) : M unit := emit (Log s).

(** [try { body } catch (error) { handler }] *)
Definition try_catch (body handler : M unit) : M unit :=
  fun st =>
    match body st with
    | (Throw, st') => handler st'
    | (ThrowDoomed, st') => doomed (handler st')
    | r => r
    end.

(** ** The tokenizer: [parseInput] *)

Module Tokenizer.

(** [[^\sQ]+], greedy: the longest run and what follows it. *)
Fixpoint plain (l : list ascii) : list ascii * list ascii :=
  match l with
  | c :: l' =>
      if JS.is_space c || JS.is_quote c then ([], l)
      else let (run, rest) := plain l' in (c :: run, rest)
  | [] => ([], [])
  end.

(** [[^Q]*], greedy. *)
Fixpoint unquoted (l : list ascii) : list ascii * list ascii :=
  match l with
  | c :: l' =>
      if JS.is_quote c then ([], l)
      else let (run, rest) := unquoted l' in (c :: run, rest)
  | [] => ([], [])
  end.

(** [Q[^Q]*Q] *)
Definition quoted (l : list ascii) : option (list ascii * list ascii) :=
  match l with
  | q :: l' =>
      if JS.is_quote q then
        match unquoted l' with
        | (body, q' :: rest) => Some (q :: body ++ [q'], rest)
        | (_, []) => None
        end
      else None
  | [] => None
  end.

(** One turn of the group [(?:[^\sQ]+|Q[^Q]*Q)]: the first
    alternative that matches. *)
Definition group (l : list ascii) : option (list ascii * list ascii) :=
  match plain l with
  | (c :: run, rest) => Some (c :: run, rest)
  | ([], _) => quoted l
  end.

(** [(?:...)+], greedy.  Every turn consumes a code unit, so [fuel]
    above the length of [l] is never used up. *)
Fixpoint group_plus (fuel : nat) (l : list ascii)
  : option (list ascii * list ascii) :=
  match fuel with
  | O => None
  | S fuel' =>
      match group l with
      | None => None
      | Some (m, rest) =>
          match group_plus fuel' rest with
          | Some (m', rest') => Some (m ++ m', rest')
          | None => Some (m, rest)
          end
      end
  end.

(** The successive matches of the [g] flag: after a match the search
    goes on where it ended, after a failure one code unit further. *)
Fixpoint match_all (fuel : nat) (l : list ascii) : list (list ascii) :=
  match fuel with
  | O => []
  | S fuel' =>
      match group_plus (S (length l)) l with
      | Some (m, rest) => m :: match_all fuel' rest
      | None =>
          match l with
          | [] => []
          | _ :: l' => match_all fuel' l'
          end
      end
  end.

(** [input.match(/(?:[^\sQ]+|Q[^Q]*Q)+/g)]: [null], here [None],
    when nothing matches. *)
Definition match_regex (input : string) : option (list string) :=
  match match_all (S (String.length input)) (JS.chars input) with
  | [] => None
  | ms => Some (map JS.str ms)
  end.

(** [arg.replace(/^Q|Q$/g, '')]: a leading and a trailing double
    quote are removed. *)
Definition strip_quotes (arg : string) : string :=
  let l := JS.chars arg in
  let l1 := match l with
            | c :: l' => if JS.is_quote c then l' else l
            | [] => []
            end in
  JS.str (match rev l1 with
          | c :: r => if JS.is_quote c then rev r else l1
          | [] => l1
          end).

(** [parseInput(input)]; [None] is the [TypeError] of [null.map]. *)
Definition parseInput (input : string) : option (list string) :=
  match match_regex input with
  | Some ms => Some (map strip_quotes ms)
  | None => None
  end.

End Tokenizer.

(** ** The program, [src/index.js] *)

Section Program.

Variable host : Host.

(** [usernameArg.split('=')[1]]; the [undefined] of a missing field
    would print as the text [undefined]. *)
Definition username_of (usernameArg : string) : string :=
  match JS.split "="%char usernameArg with
  | _ :: name :: _ => name
  | _ => "undefined"
  end.

(** [const username], lines 10 to 12.  A string is truthy when it is
    not empty. *)
Definition username : string :=
  match JS.find (fun arg => JS.startsWith arg "--username=") (argv host) with
  | Some usernameArg =>
      if String.eqb usernameArg "" then "Anonymous" else username_of usernameArg
  | None => "Anonymous"
  end.

Definition greeting : string := "Welcome to the File Manager, " +:+ username +:+ "!".
Definition farewell : string :=
  "Thank you for using File Manager, " +:+ username +:+ ", goodbye!".

Definition path_resolve (args : list (option string)) : M string :=
  or_throw (Path.resolve (cwd host) args).

(** [path.basename(p)]; [undefined] does not pass [validateString]. *)
Definition path_basename (p : option string) : M string :=
  or_throw (Path.basename <$> p).

Definition printCurrentDir : M unit :=
  d <- get_currentDir ;;
  console_log ("You are currently in " +:+ d).

Definition goUp : M unit :=
  d <- get_currentDir ;;
  let parentDir := Path.dirname d in
  if negb (String.eqb parentDir d) then set_currentDir parentDir else ret tt.

Definition changeDirectory (dir : option string) : M unit :=
  d <- get_currentDir ;;
  newPath <- path_resolve [Some d; dir] ;;
  fs <- get_disk ;;
  if Fs.existsSync fs newPath && Fs.is_dir fs newPath
  then set_currentDir newPath
  else console_log "Operation failed".

(** A stable insertion sort, for [Array.prototype.sort] with the
    comparison [cmp]. *)
Fixpoint insert_sorted {A} (cmp : A -> A -> comparison) (x : A) (l : list A) : list A :=
  match l with
  | [] => [x]
  | y :: l' =>
      match cmp x y with
      | Lt => x :: l
      | _ => y :: insert_sorted cmp x l'
      end
  end.

Definition sort_by {A} (cmp : A -> A -> comparison) (l : list A) : list A :=
  fold_left (fun acc x => insert_sorted cmp x acc) l [].

Definition isDirectory (item : string * node) : bool :=
  match snd item with Dir => true | File _ => false end.
Definition isFile (item : string * node) : bool :=
  match snd item with File _ => true | Dir => false end.

Definition listDirectory : M unit :=
  d <- get_currentDir ;;
  fs <- get_disk ;;
  items <- or_throw (Fs.readdirSync fs d) ;;
  let directories := map (fun dir => (fst dir, "directory")) (filter isDirectory items) in
  let files := map (fun file => (fst file, "file")) (filter isFile items) in
  let list := sort_by (fun a b => localeCompare host (fst a) (fst b))
                (directories ++ files) in
  emit (Table list).

(** [readFile]: every chunk is written as it arrives; the promise is
    resolved on ['end'] and rejected on ['error']. *)
Definition readFile (filePath : option string) : M unit :=
  d <- get_currentDir ;;
  fullPath <- path_resolve [Some d; filePath] ;;
  fs <- get_disk ;;
  bytes <- or_throw (Fs.read fs fullPath) ;;
  if String.eqb bytes "" then ret tt else emit (Stdout bytes).

Definition createFile (fileName : option string) : M unit :=
  d <- get_currentDir ;;
  fullPath <- path_resolve [Some d; fileName] ;;
  fs <- get_disk ;;
  fs' <- or_throw (Fs.writeFileSync fs fullPath "") ;;
  set_disk fs'.

Definition createDirectory (dirName : option string) : M unit :=
  d <- get_currentDir ;;
  fullPath <- path_resolve [Some d; dirName] ;;
  fs <- get_disk ;;
  fs' <- or_throw (Fs.mkdirSync fs fullPath) ;;
  set_disk fs'.

Definition renameFile (oldPath newName : option string) : M unit :=
  d <- get_currentDir ;;
  oldFullPath <- path_resolve [Some d; oldPath] ;;
  newFullPath <- path_resolve [Some (Path.dirname oldFullPath); newName] ;;
  fs <- get_disk ;;
  fs' <- or_throw (Fs.renameSync fs oldFullPath newFullPath) ;;
  set_disk fs'.

(** [readStream.pipe(...).pipe(writeStream)] between
    [fs.createReadStream(srcPath)] and [fs.createWriteStream(destPath)],
    awaited through a promise that ['finish'] of the write stream
    resolves and ['error'] of the write stream rejects; [through] is
    what the transform in between lets through.

    Both streams open their file when they are created, and the two
    opens are under way at once: which of them is done first is the
    host's.  The write side is opened with the flag ['w']: the target
    is emptied, or created.  The read stream reads once its file is
    open, which is after the open of the target: the bytes read are
    those the source holds then.

    Nothing listens to ['error'] on the read stream or on the
    transform: a source that cannot be opened or read and a transform
    that fails end the process, while the promise is never settled.
    When the target cannot be opened either, the ['error'] of the write
    stream rejects the promise.  It comes after one open, so before
    the error of a read or of the transform, which come after an open
    and a read: the rejection is thrown to the caller, and the process
    ends later.  Whether it comes before the error of the other open is
    the host's. *)
Definition pipe_streams (through : string -> option string)
    (srcPath destPath : string) : M unit :=
  fun st =>
    let write_first := write_opens_first host st srcPath destPath in
    let opened := Fs.open_w (disk st) destPath in
    let fs1 := match opened with Some fs' => fs' | None => disk st end in
    let st1 := {| currentDir := currentDir st; disk := fs1; console := console st |} in
    match Fs.lookup (if write_first then fs1 else disk st) srcPath,
          Fs.read fs1 srcPath with
    | Some _, Some bytes =>
        (* the source is opened and read *)
        match through bytes, opened with
        | Some bytes', Some _ =>
            (Ok tt, {| currentDir := currentDir st;
                       disk := <[destPath := File bytes']> fs1;
                       console := console st |})
        | Some _, None => (Throw, st)
        | None, Some _ => (Fatal, st1)
        | None, None => (ThrowDoomed, st)
        end
    | Some _, None =>
        (* the source is opened, the read fails: a directory *)
        match opened with
        | Some _ => (Fatal, st1)
        | None => (ThrowDoomed, st)
        end
    | None, _ =>
        (* the open of the source fails: nothing is there *)
        match opened with
        | Some _ => (Fatal, st1)
        | None => if write_first then (ThrowDoomed, st) else (Fatal, st)
        end
    end.

Definition copyFile (src destDir : option string) : M unit :=
  d <- get_currentDir ;;
  srcPath <- path_resolve [Some d; src] ;;
  base <- path_basename src ;;
  destPath <- path_resolve [Some d; destDir; Some base] ;;
  pipe_streams Some srcPath destPath.

Definition moveFile (src destDir : option string) : M unit :=
  copyFile src destDir ;;
  d <- get_currentDir ;;
  srcPath <- path_resolve [Some d; src] ;;
  fs <- get_disk ;;
  fs' <- or_throw (Fs.unlinkSync fs srcPath) ;;
  set_disk fs'.

Definition removeFile (filePath : option string) : M unit :=
  d <- get_currentDir ;;
  fullPath <- path_resolve [Some d; filePath] ;;
  fs <- get_disk ;;
  fs' <- or_throw (Fs.unlinkSync fs fullPath) ;;
  set_disk fs'.

Definition decimal (n : nat) : string := NilEmpty.string_of_uint (Nat.to_uint n).

Fixpoint cpu_lines (index : nat) (l : list (string * N)) : M unit :=
  match l with
  | [] => ret tt
  | cpu :: l' => emit (CpuLine (index + 1) (fst cpu) (snd cpu)) ;; cpu_lines (S index) l'
  end.

Definition flag_is (flag : option string) (s : string) : bool :=
  match flag with Some f => String.eqb f s | None => false end.

Definition getOSInfo (flag : option string) : M unit :=
  if flag_is flag "--EOL" then emit (LogJson (EOL host))
  else if flag_is flag "--cpus" then
    console_log ("Total CPUs: " +:+ decimal (length (cpus host))) ;;
    cpu_lines 0 (cpus host)
  else if flag_is flag "--homedir" then console_log (homedir host)
  else if flag_is flag "--username" then console_log (userInfo_username host)
  else if flag_is flag "--architecture" then console_log (arch host)
  else console_log "Invalid input".

Definition calculateHash (filePath : option string) : M unit :=
  d <- get_currentDir ;;
  fullPath <- path_resolve [Some d; filePath] ;;
  fs <- get_disk ;;
  bytes <- or_throw (Fs.read fs fullPath) ;;
  console_log (sha256_hex host bytes).

Definition compressFile (src dest : option string) : M unit :=
  d <- get_currentDir ;;
  srcPath <- path_resolve [Some d; src] ;;
  destPath <- path_resolve [Some d; dest] ;;
  pipe_streams (fun bytes => Some (brotliCompress host bytes)) srcPath destPath.

Definition decompressFile (src dest : option string) : M unit :=
  d <- get_currentDir ;;
  srcPath <- path_resolve [Some d; src] ;;
  destPath <- path_resolve [Some d; dest] ;;
  pipe_streams (brotliDecompress host) srcPath destPath.

Definition exitProgram : M unit :=
  console_log farewell ;;
  fun st => (Exit 0%Z, st).

(** The [switch] of the line handler, lines 37 to 85. *)
Definition dispatch (command : option string) (params : list string) : M unit :=
  let on := flag_is command in
  if on "up" then goUp
  else if on "cd" then changeDirectory (params !! 0)
  else if on "ls" then listDirectory
  else if on "cat" then readFile (params !! 0)
  else if on "add" then createFile (params !! 0)
  else if on "mkdir" then createDirectory (params !! 0)
  else if on "rn" then renameFile (params !! 0) (params !! 1)
  else if on "cp" then copyFile (params !! 0) (params !! 1)
  else if on "mv" then moveFile (params !! 0) (params !! 1)
  else if on "rm" then removeFile (params !! 0)
  else if on "os" then getOSInfo (params !! 0)
  else if on "hash" then calculateHash (params !! 0)
  else if on "compress" then compressFile (params !! 0) (params !! 1)
  else if on "decompress" then decompressFile (params !! 0) (params !! 1)
  else if on ".exit" then exitProgram
  else console_log "Invalid input".

(** How the handling of one line ends. *)
Inductive outcome : Type :=
| Prompted
    (** the handler ran to its last statement, [rl.prompt()] *)
| Exited (code : Z)
    (** [process.exit(code)] *)
| Rejected
    (** an exception left the [async] handler: its promise is
        rejected and nothing handles the rejection *)
| Crashed
    (** an uncaught ['error'] event, while the handler waits or after it
        has run to its end *).

(** Lines 36 to 91: the [try] around the [switch], then the echo of
    the cursor and the prompt. *)
Definition run_command (command : option string) (params : list string)
    (st : state) : outcome * state :=
  match (try_catch (dispatch command params) (console_log "Operation failed") ;;
         printCurrentDir ;;
         emit Prompt) st with
  | (Ok _, st') => (Prompted, st')
  | (Throw, st') => (Rejected, st')
  | (Fatal, st') => (Crashed, st')
  | (Exit code, st') => (Exited code, st')
  | (Doomed _, st') => (Crashed, st')
  | (ThrowDoomed, st') => (Rejected, st')
  end.

(** The ['line'] listener, lines 27 to 92. *)
Definition on_line (line : string) (st : state) : outcome * state :=
  let input := JS.trim line in
  if String.eqb input "" then
    match emit Prompt st with (_, st') => (Prompted, st') end
  else
    match Tokenizer.parseInput input with
    | None => (Rejected, st)
    | Some tokens => run_command (head tokens) (tail tokens) st
    end.

(** The ['close'] listener. *)
Definition on_close (st : state) : outcome * state :=
  match exitProgram st with
  | (Exit code, st') => (Exited code, st')
  | (_, st') => (Prompted, st')
  end.

(** Lines 14 to 25: the state when the first line is awaited. *)
Definition startup (fs : gmap string node) : state :=
  {| currentDir := homedir host;
     disk := fs;
     console := [Log greeting;
                 Log ("You are currently in " +:+ homedir host);
                 Prompt] |}.

(** The session: the lines are handled in turn as long as the handler
    reaches the prompt; the end of the input closes the interface.
    An unhandled rejection and an uncaught ['error'] event end the
    process (the default of Node.js since version 15).  Each line
    arrives when the handling of the one before it has ended, as at a
    terminal; lines that arrive while a handler is still pending are
    outside this definition. *)
Fixpoint session (lines : list string) (st : state) : outcome * state :=
  match lines with
  | [] => on_close st
  | line :: lines' =>
      match on_line line st with
      | (Prompted, st') => session lines' st'
      | stop => stop
      end
  end.

End Program.

(** ** Vocabulary of the statements *)

(** A computation that leaves [currentDir] as it found it, however
    it ends. *)
Definition keeps_cursor {A} (m : M A) : Prop :=
  forall st, currentDir (snd (m st)) = currentDir st.

(** The command word of a line: the first token, when the line has
    tokens. *)
Definition command_of (line : string) : option string :=
  match Tokenizer.parseInput (JS.trim line) with
  | Some tokens => head tokens
  | None => None
  end.

Definition with_cursor (d : string) (st : state) : state :=
  {| currentDir := d; disk := disk st; console := console st |}.

Definition with_disk (fs : gmap string node) (st : state) : state :=
  {| currentDir := currentDir st; disk := fs; console := console st |}.

Definition printed (o : output) (st : state) : state :=
  {| currentDir := currentDir st; disk := disk st; console := console st ++ [o] |}.

(** The end of every handled command: the cursor is echoed and the
    prompt is shown. *)
Definition echoed (st : state) : state :=
  printed Prompt (printed (Log ("You are currently in " +:+ currentDir st)) st).

(** The same after the [catch] has reported a failure. *)
Definition failed (st : state) : state :=
  echoed (printed (Log "Operation failed") st).

(** A code unit that is neither white space nor a double quote. *)
Definition is_plain (c : ascii) : bool := negb (JS.is_space c || JS.is_quote c).

(** A segment that [normalizeString] keeps as it is. *)
Definition plain_segment (seg : string) : bool :=
  negb (String.eqb seg "" || String.eqb seg "." || String.eqb seg "..").

(** An absolute path in normal form: the root, or plain segments,
    each after one separator. *)
Definition canonical (p : string) : bool :=
  Path.is_absolute p &&
  match JS.split Path.slash p with
  | _ :: segs => String.eqb p "/" || forallb plain_segment segs
  | [] => false
  end.

(** A relation between the state before and the state after that a
    computation keeps, however it ends. *)
Definition preserves (P : state -> state -> Prop) {A} (m : M A) : Prop :=
  forall st, P st (snd (m st)).

Definition same_disk (a b : state) : Prop := disk b = disk a.

Definition console_grows (a b : state) : Prop :=
  exists more, console b = console a ++ more.

(** The words the [switch] of the line handler has a [case] for. *)
Definition known_commands : list string :=
  ["up"; "cd"; "ls"; "cat"; "add"; "mkdir"; "rn"; "cp"; "mv"; "rm"; "os";
   "hash"; "compress"; "decompress"; ".exit"].

(** The commands whose functions call a writing function of [fs]. *)
Definition writing_commands : list string :=
  ["add"; "mkdir"; "rn"; "cp"; "mv"; "rm"; "compress"; "decompress"].

(** The commands whose functions pipe a read stream. *)
Definition streaming_commands : list string :=
  ["cp"; "mv"; "compress"; "decompress"].

(** What the transform of a piping command lets through: [cp] and
    [mv] have none between the two streams. *)
Definition through_of (host : Host) (command : string) : string -> option string :=
  if String.eqb command "compress" then fun bytes => Some (brotliCompress host bytes)
  else if String.eqb command "decompress" then brotliDecompress host
  else Some.

(** The arguments of the [path.resolve] that gives the target of a
    piping command at the cursor [d]: [cp] and [mv] write into the
    directory named, under the name of the source; [compress] and
    [decompress] write at the path named. *)
Definition target_args (command : string) (d src dest : string) : list (option string) :=
  if String.eqb command "cp" || String.eqb command "mv"
  then [Some d; Some dest; Some (Path.basename src)]
  else [Some d; Some dest].

(** The commands whose first parameter is a path, and those that take
    a second one. *)
Definition path_commands : list string :=
  ["cd"; "cat"; "add"; "mkdir"; "rn"; "cp"; "mv"; "rm"; "hash"; "compress";
   "decompress"].
Definition two_path_commands : list string :=
  ["rn"; "cp"; "mv"; "compress"; "decompress"].

(** The ways a computation may end: by returning or throwing, by an
    uncaught ['error'] when [fatal] allows it, by [process.exit(0)]
    when [exit] allows it. *)
Definition ends_within (fatal exit : bool) {A} (m : M A) : Prop :=
  forall st,
    match fst (m st) with
    | Ok _ | Throw => True
    | Fatal | Doomed _ | ThrowDoomed => fatal = true
    | Exit code => exit = true /\ code = 0%Z
    end.

(** ** A host and a tree for the closed instances below *)

(** On this host the open of a read stream is done before the open of
    the write stream created after it. *)
Definition sample_host_with (args : list string) : Host :=
  {| argv := args; homedir := "/home/u"; cwd := "/srv";
     EOL := String "010"%char ""; cpus := [("cpu", 2400%N)];
     userInfo_username := "ann"; arch := "x64";
     sha256_hex := fun bytes => "sha256:" +:+ bytes;
     brotliCompress := fun bytes => "br:" +:+ bytes;
     brotliDecompress := fun bytes =>
       if String.prefix "br:" bytes
       then Some (String.substring 3 (String.length bytes - 3) bytes) else None;
     localeCompare := String.compare;
     write_opens_first := fun _ _ _ => false |}.

Definition sample_host : Host := sample_host_with ["--username=Ann"].

(** The same host, but one where the open of a write stream is done
    before the open of the read stream created just before it. *)
Definition write_first (h : Host) : Host :=
  {| argv := argv h; homedir := homedir h; cwd := cwd h; EOL := EOL h;
     cpus := cpus h; userInfo_username := userInfo_username h; arch := arch h;
     sha256_hex := sha256_hex h; brotliCompress := brotliCompress h;
     brotliDecompress := brotliDecompress h; localeCompare := localeCompare h;
     write_opens_first := fun _ _ _ => true |}.

Definition sample_disk : gmap string node :=
  list_to_map [("/home", Dir); ("/home/u", Dir); ("/home/u/a.txt", File "hi");
               ("/home/u/z.br", File "br:data");
               ("/home/u/sub", Dir); ("/home/u/sub/x", File "x")].

Definition sample_state : state := startup sample_host sample_disk.

(** The line that is one double quote. *)
Definition lone_quote : string := String JS.quote "".

(** What one line does to the sample state. *)
Definition after (line : string) (st : state) : state := snd (on_line sample_host line st).

(** The row that [ls] shows for an entry of a directory. *)
Definition row_of (item : string * node) : string * string :=
  (fst item, match snd item with Dir => "directory" | File _ => "file" end).

(** No element is above its successor. *)
Fixpoint ordered {A} (cmp : A -> A -> comparison) (l : list A) : Prop :=
  match l with
  | a :: (b :: _) as t => cmp a b <> Gt /\ ordered cmp t
  | _ => True
  end.

(** The flags [os] knows. *)
Definition os_flags : list string :=
  ["--EOL"; "--cpus"; "--homedir"; "--username"; "--architecture"].

(** An argument as the user means it: a bare word, or a text put
    between double quotes. *)
Inductive arg : Type :=
| Bare (word : string)
| InQuotes (body : string).

(** A bare word is not empty and has neither white space nor a double
    quote; a text between quotes has no double quote. *)
Definition arg_ok (a : arg) : bool :=
  match a with
  | Bare w => negb (String.eqb w "") && forallb is_plain (JS.chars w)
  | InQuotes b => forallb (fun c => negb (JS.is_quote c)) (JS.chars b)
  end.

(** What is typed for it. *)
Definition written (a : arg) : string :=
  match a with
  | Bare w => w
  | InQuotes b => lone_quote +:+ b +:+ lone_quote
  end.

(** What the command is to receive. *)
Definition meant (a : arg) : string :=
  match a with
  | Bare w => w
  | InQuotes b => b
  end.

(** The code units typed for an argument. *)
Definition typed (a : arg) : list ascii := JS.chars (written a).

(** What can follow an argument on the line: nothing, or a space. *)
Definition ends_argument (rest : list ascii) : Prop :=
  rest = [] \/ exists r, rest = " "%char :: r.

(** The code units of arguments typed with one space between them. *)
Fixpoint typed_line (args : list arg) : list ascii :=
  match args with
  | [] => []
  | [a] => typed a
  | a :: args' => typed a ++ " "%char :: typed_line args'
  end.

(** A segment without a separator in it. *)
Definition slash_free (seg : string) : bool :=
  forallb (fun c => negb (Ascii.eqb c Path.slash)) (JS.chars seg).

(** A name of an entry: not empty, not [.], not [..], no separator. *)
Definition entry_name (seg : string) : bool := plain_segment seg && slash_free seg.

(** The absolute path that goes down from the root through [segs]. *)
Definition root_join (segs : list string) : string := "/" +:+ JS.join "/" segs.

(** The entry [seg] of the directory [dir]. *)
Definition child (dir seg : string) : string :=
  if String.eqb dir "/" then "/" +:+ seg else dir +:+ "/" +:+ seg.

(** Every name of [names] is the name of a directory, each in the one
    before, from [dir] down. *)
Fixpoint directories_down (fs : gmap string node) (dir : string) (names : list string)
  : Prop :=
  match names with
  | [] => True
  | d :: names' =>
      entry_name d = true /\ Fs.is_dir fs (child dir d) = true /\
      directories_down fs (child dir d) names'
  end.

(** The state after a sequence of commands, each handled in turn. *)
Definition run_commands (host : Host) (commands : list (string * list string))
    (st : state) : state :=
  fold_left (fun st c => snd (run_command host (Some (fst c)) (snd c) st)) commands st.

Arguments Path.resolve : simpl never.
Arguments Path.dirname : simpl never.
Arguments Path.basename : simpl never.

(** * Properties *)

(** ** The cursor is only moved by [up] and [cd] *)

(** A pending ['error'] event changes how a computation ends, not the
    state it leaves. *)
Lemma snd_doomed {A} (r : result A * state) : snd (doomed r) = snd r.
Proof. destruct r as [[a| | |code|a| ] st]; reflexivity. Qed.

Section CursorFrame.

Variable host : Host.

Lemma keeps_ret {A} (a : A) : keeps_cursor (ret a).
Proof. intros st. reflexivity. Qed.

Lemma keeps_throw {A} : keeps_cursor (@throw A).
Proof. intros st. reflexivity. Qed.

Lemma keeps_bind {A B} (m : M A) (k : A -> M B) :
  keeps_cursor m -> (forall a, keeps_cursor (k a)) -> keeps_cursor (bind m k).
Proof.
  intros Hm Hk st. unfold bind. specialize (Hm st).
  destruct (m st) as [[a| | |code|a| ] st']; simpl in *; try assumption.
  - rewrite Hk. assumption.
  - rewrite snd_doomed, Hk. assumption.
Qed.

Lemma keeps_or_throw {A} (o : option A) : keeps_cursor (or_throw o).
Proof. destruct o; [apply keeps_ret | apply keeps_throw]. Qed.

Lemma keeps_get_currentDir : keeps_cursor get_currentDir.
Proof. intros st. reflexivity. Qed.

Lemma keeps_get_disk : keeps_cursor get_disk.
Proof. intros st. reflexivity. Qed.

Lemma keeps_set_disk fs : keeps_cursor (set_disk fs).
Proof. intros st. reflexivity. Qed.

Lemma keeps_emit o : keeps_cursor (emit o).
Proof. intros st. reflexivity. Qed.

Lemma keeps_try_catch body handler :
  keeps_cursor body -> keeps_cursor handler -> keeps_cursor (try_catch body handler).
Proof.
  intros Hb Hh st. unfold try_catch. specialize (Hb st).
  destruct (body st) as [[a| | |code|a| ] st']; simpl in *; try assumption.
  - rewrite Hh. assumption.
  - rewrite snd_doomed, Hh. assumption.
Qed.

Lemma keeps_pipe_streams through srcPath destPath :
  keeps_cursor (pipe_streams host through srcPath destPath).
Proof.
  intros st. unfold pipe_streams.
  destruct (Fs.lookup _ srcPath); [destruct (Fs.read _ srcPath) as [bytes|]|];
    [destruct (through bytes)|..];
    destruct (Fs.open_w (disk st) destPath);
    try destruct (write_opens_first host st srcPath destPath); reflexivity.
Qed.

Lemma keeps_cpu_lines l : forall index, keeps_cursor (cpu_lines index l).
Proof.
  induction l as [|cpu l IH]; intros index; simpl.
  - apply keeps_ret.
  - apply keeps_bind; [apply keeps_emit | intros _; apply IH].
Qed.

Create HintDb cursor.
Hint Resolve keeps_ret keeps_throw keeps_or_throw keeps_get_currentDir
  keeps_get_disk keeps_set_disk keeps_emit keeps_pipe_streams
  keeps_cpu_lines : cursor.

(** Walks down a sequence of binds whose steps are in the database. *)
Ltac frame :=
  repeat first
    [ apply keeps_bind; [solve [auto with cursor] | intros ?]
    | match goal with |- keeps_cursor (if ?b then _ else _) => destruct b end
    | solve [auto with cursor] ].

Lemma keeps_path_resolve args : keeps_cursor (path_resolve host args).
Proof. apply keeps_or_throw. Qed.

Lemma keeps_path_basename p : keeps_cursor (path_basename p).
Proof. apply keeps_or_throw. Qed.

Hint Resolve keeps_path_resolve keeps_path_basename : cursor.

Lemma keeps_printCurrentDir : keeps_cursor printCurrentDir.
Proof. unfold printCurrentDir, console_log. frame. Qed.

Lemma keeps_listDirectory : keeps_cursor (listDirectory host).
Proof. unfold listDirectory. frame. Qed.

Lemma keeps_readFile p : keeps_cursor (readFile host p).
Proof. unfold readFile. frame. Qed.

Lemma keeps_createFile p : keeps_cursor (createFile host p).
Proof. unfold createFile. frame. Qed.

Lemma keeps_createDirectory p : keeps_cursor (createDirectory host p).
Proof. unfold createDirectory. frame. Qed.

Lemma keeps_renameFile p q : keeps_cursor (renameFile host p q).
Proof. unfold renameFile. frame. Qed.

Lemma keeps_copyFile p q : keeps_cursor (copyFile host p q).
Proof. unfold copyFile. frame. Qed.

Lemma keeps_moveFile p q : keeps_cursor (moveFile host p q).
Proof.
  unfold moveFile. apply keeps_bind; [apply keeps_copyFile | intros _]. frame.
Qed.

Lemma keeps_removeFile p : keeps_cursor (removeFile host p).
Proof. unfold removeFile. frame. Qed.

Lemma keeps_getOSInfo flag : keeps_cursor (getOSInfo host flag).
Proof. unfold getOSInfo, console_log. frame. Qed.

Lemma keeps_calculateHash p : keeps_cursor (calculateHash host p).
Proof. unfold calculateHash, console_log. frame. Qed.

Lemma keeps_compressFile p q : keeps_cursor (compressFile host p q).
Proof. unfold compressFile. frame. Qed.

Lemma keeps_decompressFile p q : keeps_cursor (decompressFile host p q).
Proof. unfold decompressFile. frame. Qed.

Lemma keeps_exitProgram : keeps_cursor (exitProgram host).
Proof.
  unfold exitProgram, console_log.
  apply keeps_bind; [apply keeps_emit | intros _ st; reflexivity].
Qed.

Lemma flag_is_false (command : option string) (s : string) :
  command <> Some s -> flag_is command s = false.
Proof.
  intros H. destruct command as [c|]; simpl; [|reflexivity].
  destruct (String.eqb_spec c s); [congruence | reflexivity].
Qed.

(** The [switch] on a command other than [up] and [cd]. *)
Lemma keeps_dispatch command params :
  command <> Some "up" -> command <> Some "cd" ->
  keeps_cursor (dispatch host command params).
Proof.
  intros Hup Hcd. unfold dispatch.
  rewrite (flag_is_false _ _ Hup), (flag_is_false _ _ Hcd).
  repeat match goal with
         | |- keeps_cursor (if ?b then _ else _) => destruct b
         end;
    first [ apply keeps_listDirectory | apply keeps_readFile
          | apply keeps_createFile | apply keeps_createDirectory
          | apply keeps_renameFile | apply keeps_copyFile
          | apply keeps_moveFile | apply keeps_removeFile
          | apply keeps_getOSInfo | apply keeps_calculateHash
          | apply keeps_compressFile | apply keeps_decompressFile
          | apply keeps_exitProgram | apply keeps_emit ].
Qed.

Lemma run_command_keeps_cursor command params st :
  command <> Some "up" -> command <> Some "cd" ->
  currentDir (snd (run_command host command params st)) = currentDir st.
Proof.
  intros Hup Hcd. unfold run_command.
  set (m := try_catch (dispatch host command params)
              (console_log "Operation failed") ;;
            printCurrentDir ;; emit Prompt).
  assert (K : keeps_cursor m).
  { apply keeps_bind.
    - apply keeps_try_catch; [apply keeps_dispatch; assumption | apply keeps_emit].
    - intros _. apply keeps_bind; [apply keeps_printCurrentDir | intros _; apply keeps_emit]. }
  specialize (K st).
  destruct (m st) as [[a| | |code|a| ] st']; exact K.
Qed.

(** C5. Handling a line whose command word is neither [up] nor [cd]
    (any of ls, cat, add, mkdir, rn, cp, mv, rm, os, hash, compress,
    decompress, .exit, an unknown word, or no command at all) leaves
    the current directory as it was, whether the operation succeeds,
    fails or ends the process. *)
Theorem cursor_moved_only_by_up_and_cd (line : string) (st : state) :
  command_of line <> Some "up" -> command_of line <> Some "cd" ->
  currentDir (snd (on_line host line st)) = currentDir st.
Proof.
  unfold command_of, on_line. intros Hup Hcd.
  destruct (String.eqb (JS.trim line) ""); [reflexivity|].
  destruct (Tokenizer.parseInput (JS.trim line)) as [tokens|]; [|reflexivity].
  apply run_command_keeps_cursor; assumption.
Qed.

End CursorFrame.

Section Dispatcher.

Variable host : Host.

(** The ways out of the [try] of the line handler.  With an ['error']
    event still to come, the handler runs to its end all the same, and
    the process ends after the prompt. *)
Lemma run_command_cases command params st :
  run_command host command params st =
  match dispatch host command params st with
  | (Ok _, st') => (Prompted, echoed st')
  | (Throw, st') => (Prompted, failed st')
  | (Fatal, st') => (Crashed, st')
  | (Exit code, st') => (Exited code, st')
  | (Doomed _, st') => (Crashed, echoed st')
  | (ThrowDoomed, st') => (Crashed, failed st')
  end.
Proof.
  unfold run_command, bind, try_catch.
  destruct (dispatch host command params st) as [[a| | |code|a| ] st']; reflexivity.
Qed.

Lemma resolve_loop_defined (l : list string) cwd acc :
  exists r, Path.resolve_loop (map Some l) cwd acc = Some r.
Proof.
  revert acc. induction l as [|p l IH]; intros acc; simpl.
  - destruct (String.eqb cwd ""); eauto.
  - destruct (String.eqb p ""); [apply IH|].
    destruct (Path.is_absolute p); [eauto | apply IH].
Qed.

(** [path.resolve] returns whenever all its arguments are strings. *)
Lemma resolve_defined (l : list string) cwd :
  exists p, Path.resolve cwd (map Some l) = Some p.
Proof.
  unfold Path.resolve. rewrite <- map_rev.
  destruct (resolve_loop_defined (rev l) cwd "") as [[rp ra] ->]. eauto.
Qed.

(** [fs.existsSync(p) && fs.statSync(p).isDirectory()] *)
Lemma exists_and_is_dir fs p :
  Fs.existsSync fs p && Fs.is_dir fs p = Fs.is_dir fs p.
Proof.
  unfold Fs.existsSync, Fs.is_dir. destruct (Fs.lookup fs p) as [[|]|]; reflexivity.
Qed.

(** C4. For every invocation of [cd path], the path resolved against
    the current directory is defined, and: if a directory is there,
    the cursor becomes that resolved path (nothing else is printed
    before the echo); otherwise the generic failure message is
    printed and the cursor keeps its value.  The file system is left
    alone in both cases. *)
Theorem cd_adopts_directory_or_fails (dir : string) (rest : list string) (st : state) :
  exists newPath,
    Path.resolve (cwd host) [Some (currentDir st); Some dir] = Some newPath /\
    run_command host (Some "cd") (dir :: rest) st =
      (Prompted,
       if Fs.is_dir (disk st) newPath
       then echoed (with_cursor newPath st)
       else echoed (printed (Log "Operation failed") st)).
Proof.
  destruct (resolve_defined [currentDir st; dir] (cwd host)) as [newPath Hres].
  simpl in Hres. exists newPath. split; [exact Hres|].
  rewrite run_command_cases.
  change (dispatch host (Some "cd") (dir :: rest))
    with (changeDirectory host (Some dir)).
  unfold changeDirectory, bind, get_currentDir, path_resolve, get_disk.
  rewrite Hres. simpl. rewrite exists_and_is_dir.
  destruct (Fs.is_dir (disk st) newPath); reflexivity.
Qed.

(** [cd] without an argument: [path.resolve] rejects [undefined], the
    [catch] reports it. *)
Lemma cd_without_argument st :
  run_command host (Some "cd") [] st = (Prompted, failed st).
Proof. reflexivity. Qed.

(** C1, as the code has it.  [add name] on a path that holds a
    regular file does not fail: no failure message is printed, and
    the file is left with zero length, whatever it held. *)
Theorem add_existing_file_truncates (name : string) (rest : list string)
    (st : state) (p c : string) :
  Path.resolve (cwd host) [Some (currentDir st); Some name] = Some p ->
  Fs.lookup (disk st) p = Some (File c) ->
  run_command host (Some "add") (name :: rest) st =
    (Prompted, echoed (with_disk (<[p := File ""]> (disk st)) st)).
Proof.
  intros Hres Hfile. rewrite run_command_cases.
  change (dispatch host (Some "add") (name :: rest))
    with (createFile host (Some name)).
  unfold createFile, bind, get_currentDir, path_resolve, get_disk.
  rewrite Hres. simpl.
  unfold Fs.writeFileSync, Fs.open_w. rewrite Hfile. simpl.
  rewrite insert_insert_eq. reflexivity.
Qed.

End Dispatcher.

(** ** Streams: copy, move, compress, decompress *)

Section Streams.

Variable host : Host.

Lemma lookup_insert_same fs p n :
  p <> "/" -> Fs.lookup (<[p := n]> fs) p = Some n.
Proof.
  intros Hp. unfold Fs.lookup.
  destruct (String.eqb_spec p "/"); [contradiction|]. apply lookup_insert_eq.
Qed.

Lemma lookup_insert_other fs p q n :
  q <> p -> Fs.lookup (<[p := n]> fs) q = Fs.lookup fs q.
Proof.
  intros Hq. unfold Fs.lookup.
  destruct (String.eqb q "/"); [reflexivity|]. apply lookup_insert_ne. congruence.
Qed.

Lemma not_root_of_file fs p c : Fs.lookup fs p = Some (File c) -> p <> "/".
Proof. intros H ->. discriminate H. Qed.

Lemma not_root_of_not_dir fs p : Fs.lookup fs p <> Some Dir -> p <> "/".
Proof. intros H ->. apply H. reflexivity. Qed.

(** The open of a write stream succeeds where a file can be. *)
Lemma open_w_ok fs p :
  Fs.is_dir fs (Fs.parent p) = true -> Fs.lookup fs p <> Some Dir ->
  Fs.open_w fs p = Some (<[p := File ""]> fs).
Proof.
  intros Hpar Hnd. unfold Fs.open_w.
  destruct (Fs.lookup fs p) as [[c|]|]; [reflexivity | congruence |].
  rewrite Hpar. reflexivity.
Qed.

(** What the open of a write stream changes. *)
Lemma open_w_inv fs p fs' :
  Fs.open_w fs p = Some fs' ->
  fs' = <[p := File ""]> fs /\ Fs.lookup fs p <> Some Dir.
Proof.
  unfold Fs.open_w. intros H.
  destruct (Fs.lookup fs p) as [[c|]|]; [|discriminate|].
  - split; congruence.
  - destruct (Fs.is_dir fs (Fs.parent p)); [split; congruence | discriminate].
Qed.

(** The open of a write stream leaves every other path as it was. *)
Lemma open_w_other fs p fs' q :
  Fs.open_w fs p = Some fs' -> q <> p -> Fs.lookup fs' q = Fs.lookup fs q.
Proof.
  intros Hopen Hq. apply open_w_inv in Hopen as [-> _].
  apply lookup_insert_other. exact Hq.
Qed.

(** A pipe from a regular file.  The bytes read are those of the
    source, unless the target is the source itself, emptied by the
    open.  The pipe goes through when the target is opened and the
    transform lets the bytes through; a transform that fails ends the
    process, after the rejection when the target is not opened. *)
Lemma pipe_streams_of_file through sp dp st c :
  Fs.lookup (disk st) sp = Some (File c) ->
  pipe_streams host through sp dp st =
    match Fs.open_w (disk st) dp with
    | Some fs' =>
        match through (if String.eqb sp dp then "" else c) with
        | Some bytes' => (Ok tt, with_disk (<[dp := File bytes']> (disk st)) st)
        | None => (Fatal, with_disk fs' st)
        end
    | None =>
        match through c with
        | Some _ => (Throw, st)
        | None => (ThrowDoomed, st)
        end
    end.
Proof.
  intros Hsrc. unfold pipe_streams.
  destruct (Fs.open_w (disk st) dp) as [fs'|] eqn:Hopen.
  - apply open_w_inv in Hopen as [-> Hnd].
    assert (Hlook : Fs.lookup (<[dp := File ""]> (disk st)) sp
                    = Some (File (if String.eqb sp dp then "" else c))).
    { destruct (String.eqb_spec sp dp) as [->|Hne].
      - apply lookup_insert_same. eapply not_root_of_not_dir; eassumption.
      - rewrite lookup_insert_other by assumption. exact Hsrc. }
    assert (Hfound : exists n,
              Fs.lookup (if write_opens_first host st sp dp
                         then <[dp := File ""]> (disk st) else disk st) sp = Some n).
    { destruct (write_opens_first host st sp dp); eauto. }
    destruct Hfound as [n ->]. unfold Fs.read. rewrite Hlook.
    destruct (through (if String.eqb sp dp then "" else c)); [|reflexivity].
    unfold with_disk. rewrite insert_insert_eq. reflexivity.
  - assert (Hfound : Fs.lookup (if write_opens_first host st sp dp
                                then disk st else disk st) sp = Some (File c))
      by (destruct (write_opens_first host st sp dp); exact Hsrc).
    rewrite Hfound. unfold Fs.read. rewrite Hsrc.
    destruct (through c); reflexivity.
Qed.

(** A pipe from a directory: the read fails and ends the process, after
    the rejection when the target is not opened. *)
Lemma pipe_streams_of_directory through sp dp st :
  Fs.lookup (disk st) sp = Some Dir ->
  pipe_streams host through sp dp st =
    match Fs.open_w (disk st) dp with
    | Some fs' => (Fatal, with_disk fs' st)
    | None => (ThrowDoomed, st)
    end.
Proof.
  intros Hsrc. unfold pipe_streams.
  destruct (Fs.open_w (disk st) dp) as [fs'|] eqn:Hopen.
  - assert (Hne : sp <> dp).
    { intros ->. apply open_w_inv in Hopen as [_ Hnd]. contradiction. }
    assert (Hlook : Fs.lookup fs' sp = Some Dir)
      by (rewrite (open_w_other _ _ _ _ Hopen Hne); exact Hsrc).
    assert (Hfound : Fs.lookup (if write_opens_first host st sp dp
                                then fs' else disk st) sp = Some Dir)
      by (destruct (write_opens_first host st sp dp); assumption).
    rewrite Hfound. unfold Fs.read. rewrite Hlook. reflexivity.
  - assert (Hfound : Fs.lookup (if write_opens_first host st sp dp
                                then disk st else disk st) sp = Some Dir)
      by (destruct (write_opens_first host st sp dp); exact Hsrc).
    rewrite Hfound. unfold Fs.read. rewrite Hsrc. reflexivity.
Qed.

(** A pipe from a path that holds nothing to another path: the open of
    the source fails and ends the process, whatever the open of the
    target has done; when the target is not opened either, the
    rejection comes first if the failure of its open does. *)
Lemma pipe_streams_no_source through sp dp st :
  Fs.lookup (disk st) sp = None -> sp <> dp ->
  pipe_streams host through sp dp st =
    match Fs.open_w (disk st) dp with
    | Some fs' => (Fatal, with_disk fs' st)
    | None =>
        if write_opens_first host st sp dp then (ThrowDoomed, st) else (Fatal, st)
    end.
Proof.
  intros Hsrc Hne. unfold pipe_streams.
  destruct (Fs.open_w (disk st) dp) as [fs'|] eqn:Hopen.
  - assert (Hfound : Fs.lookup (if write_opens_first host st sp dp
                                then fs' else disk st) sp = None).
    { destruct (write_opens_first host st sp dp); [|exact Hsrc].
      rewrite (open_w_other _ _ _ _ Hopen Hne). exact Hsrc. }
    rewrite Hfound. reflexivity.
  - destruct (write_opens_first host st sp dp); rewrite Hsrc; reflexivity.
Qed.

(** A pipe does not return with an ['error'] event still to come. *)
Lemma pipe_streams_not_doomed through sp dp st a :
  fst (pipe_streams host through sp dp st) <> Doomed a.
Proof.
  unfold pipe_streams.
  destruct (Fs.lookup _ sp); [destruct (Fs.read _ sp) as [bytes|]|];
    [destruct (through bytes)|..];
    destruct (Fs.open_w (disk st) dp);
    try destruct (write_opens_first host st sp dp); discriminate.
Qed.

(** A pipe that goes through: the target ends up holding what the
    transform lets through of the bytes read, which are those of the
    source unless the target is the source itself, emptied by the
    open. *)
Lemma pipe_streams_ok through sp dp st c c' :
  Fs.lookup (disk st) sp = Some (File c) ->
  Fs.is_dir (disk st) (Fs.parent dp) = true ->
  Fs.lookup (disk st) dp <> Some Dir ->
  through (if String.eqb sp dp then "" else c) = Some c' ->
  pipe_streams host through sp dp st =
    (Ok tt, with_disk (<[dp := File c']> (disk st)) st).
Proof.
  intros Hsrc Hpar Hnd Hthrough.
  rewrite (pipe_streams_of_file _ _ _ _ _ Hsrc), (open_w_ok _ _ Hpar Hnd), Hthrough.
  reflexivity.
Qed.

(** A pipe that does not go through leaves every node that the source
    path held, and the cursor and the console. *)
Lemma pipe_streams_failure through sp dp st r st1 :
  pipe_streams host through sp dp st = (r, st1) -> r <> Ok tt ->
  (forall bytes, through bytes <> None) ->
  forall n, Fs.lookup (disk st) sp = Some n -> Fs.lookup (disk st1) sp = Some n.
Proof.
  intros Hrun Hr Hthrough n Hn. destruct n as [c|].
  - rewrite (pipe_streams_of_file _ _ _ _ _ Hn) in Hrun.
    destruct (Fs.open_w (disk st) dp) as [fs'|].
    + destruct (through (if String.eqb sp dp then "" else c)) eqn:Ht;
        [|exfalso; eapply Hthrough; eassumption].
      inversion Hrun; subst. exfalso. apply Hr. reflexivity.
    + destruct (through c); inversion Hrun; subst; exact Hn.
  - rewrite (pipe_streams_of_directory _ _ _ _ Hn) in Hrun.
    destruct (Fs.open_w (disk st) dp) as [fs'|] eqn:Hopen;
      inversion Hrun; subst; [|exact Hn].
    simpl. rewrite (open_w_other _ _ _ _ Hopen); [exact Hn|].
    intros ->. apply open_w_inv in Hopen as [_ Hnd]. contradiction.
Qed.

Lemma is_dir_insert_file fs p q c :
  Fs.is_dir fs q = true -> Fs.lookup fs p <> Some Dir ->
  Fs.is_dir (<[p := File c]> fs) q = true.
Proof.
  intros Hq Hp. unfold Fs.is_dir in *.
  destruct (String.eqb_spec q p) as [->|Hne].
  - destruct (Fs.lookup fs p) as [[|]|]; congruence.
  - rewrite lookup_insert_other by assumption. exact Hq.
Qed.

(** [copyFile] on two strings: the two paths, then the pipe. *)
Lemma copyFile_pipes src destDir st sp dp :
  Path.resolve (cwd host) [Some (currentDir st); Some src] = Some sp ->
  Path.resolve (cwd host)
    [Some (currentDir st); Some destDir; Some (Path.basename src)] = Some dp ->
  copyFile host (Some src) (Some destDir) st = pipe_streams host Some sp dp st.
Proof.
  intros Hsp Hdp.
  unfold copyFile, bind, get_currentDir, path_resolve, path_basename.
  rewrite Hsp. simpl. rewrite Hdp. reflexivity.
Qed.

(** A copy does not return with an ['error'] event still to come. *)
Lemma copyFile_not_doomed src destDir st a :
  fst (copyFile host src destDir st) <> Doomed a.
Proof.
  unfold copyFile, bind, get_currentDir, path_resolve, path_basename.
  destruct (Path.resolve (cwd host) [Some (currentDir st); src]) as [sp|];
    simpl; [|discriminate].
  destruct src as [src|]; simpl; [|discriminate].
  destruct (Path.resolve (cwd host)
              [Some (currentDir st); destDir; Some (Path.basename src)])
    as [dp|]; simpl; [|discriminate].
  apply pipe_streams_not_doomed.
Qed.

(** A copy that does not go through leaves what the source path held. *)
Lemma copyFile_failure src destDir st r st1 :
  copyFile host src destDir st = (r, st1) -> r <> Ok tt ->
  forall sp n,
    Path.resolve (cwd host) [Some (currentDir st); src] = Some sp ->
    Fs.lookup (disk st) sp = Some n -> Fs.lookup (disk st1) sp = Some n.
Proof.
  intros Hrun Hr sp n Hsp Hn.
  unfold copyFile, bind, get_currentDir, path_resolve, path_basename in Hrun.
  rewrite Hsp in Hrun. simpl in Hrun.
  destruct src as [src|]; simpl in Hrun; [|inversion Hrun; subst; exact Hn].
  destruct (Path.resolve (cwd host)
              [Some (currentDir st); destDir; Some (Path.basename src)])
    as [dp|]; simpl in Hrun; [|inversion Hrun; subst; exact Hn].
  eapply pipe_streams_failure; eauto; discriminate.
Qed.

(** C3. For every invocation of move: when the copy phase does not
    succeed, the move ends as the copy phase ended, in the very state
    the copy phase left (nothing is deleted, or tried), and what the
    source path held is still there; and whenever the source is gone
    after the move, the copy phase had succeeded. *)
Theorem mv_deletes_only_after_copy (src destDir : option string) (st : state) :
  (fst (copyFile host src destDir st) <> Ok tt ->
     moveFile host src destDir st = copyFile host src destDir st /\
     forall sp n,
       Path.resolve (cwd host) [Some (currentDir st); src] = Some sp ->
       Fs.lookup (disk st) sp = Some n ->
       Fs.lookup (disk (snd (moveFile host src destDir st))) sp = Some n) /\
  (forall sp n,
     Path.resolve (cwd host) [Some (currentDir st); src] = Some sp ->
     Fs.lookup (disk st) sp = Some n ->
     Fs.lookup (disk (snd (moveFile host src destDir st))) sp = None ->
     fst (copyFile host src destDir st) = Ok tt).
Proof.
  assert (Hfail : fst (copyFile host src destDir st) <> Ok tt ->
     moveFile host src destDir st = copyFile host src destDir st /\
     forall sp n,
       Path.resolve (cwd host) [Some (currentDir st); src] = Some sp ->
       Fs.lookup (disk st) sp = Some n ->
       Fs.lookup (disk (snd (moveFile host src destDir st))) sp = Some n).
  { intros Hr.
    assert (Hsame : moveFile host src destDir st = copyFile host src destDir st).
    { unfold moveFile at 1, bind at 1.
      pose proof (copyFile_not_doomed src destDir st) as Hnd.
      destruct (copyFile host src destDir st) as [[[]| | |code|a| ] st1];
        try reflexivity; exfalso; [apply Hr | apply (Hnd a)]; reflexivity. }
    split; [exact Hsame|]. intros sp n Hsp Hn. rewrite Hsame.
    destruct (copyFile host src destDir st) as [r st1] eqn:Hrun.
    eapply copyFile_failure; eauto. }
  split; [exact Hfail|].
  intros sp n Hsp Hn Hgone.
  assert (Hdec : fst (copyFile host src destDir st) = Ok tt \/
                 fst (copyFile host src destDir st) <> Ok tt).
  { destruct (fst (copyFile host src destDir st)) as [[]| | |code|a| ];
      [left; reflexivity | right; discriminate ..]. }
  destruct Hdec as [Hok|Hne]; [exact Hok|]. exfalso.
  destruct (Hfail Hne) as [_ Hkeep].
  rewrite (Hkeep sp n Hsp Hn) in Hgone. discriminate.
Qed.

(** The command [cp] between a regular file and another place where
    a file can be. *)
Lemma cp_command_ok src destDir rest st sp dp c :
  Path.resolve (cwd host) [Some (currentDir st); Some src] = Some sp ->
  Path.resolve (cwd host)
    [Some (currentDir st); Some destDir; Some (Path.basename src)] = Some dp ->
  Fs.lookup (disk st) sp = Some (File c) ->
  Fs.is_dir (disk st) (Fs.parent dp) = true ->
  Fs.lookup (disk st) dp <> Some Dir ->
  sp <> dp ->
  run_command host (Some "cp") (src :: destDir :: rest) st =
    (Prompted, echoed (with_disk (<[dp := File c]> (disk st)) st)).
Proof.
  intros Hsp Hdp Hsrc Hpar Hnd Hne. rewrite run_command_cases.
  change (dispatch host (Some "cp") (src :: destDir :: rest))
    with (copyFile host (Some src) (Some destDir)).
  rewrite (copyFile_pipes _ _ _ _ _ Hsp Hdp).
  rewrite (pipe_streams_ok Some sp dp st c c); try assumption; [reflexivity|].
  destruct (String.eqb_spec sp dp); [contradiction | reflexivity].
Qed.

(** C6, as the code has it.  When the source is a regular file, the
    target [destDir/basename(src)] (both resolved against the current
    directory) is a place where a file can be (its directory exists,
    it is not a directory itself) and it is not the source itself:
    [cp] prints no failure and leaves the bytes of the source at the
    target, whatever was there.  Running the same [cp] again succeeds
    again and changes nothing more; and if the source was rewritten
    in between, the target holds the new bytes. *)
Theorem cp_writes_source_to_target src destDir rest st sp dp c :
  Path.resolve (cwd host) [Some (currentDir st); Some src] = Some sp ->
  Path.resolve (cwd host)
    [Some (currentDir st); Some destDir; Some (Path.basename src)] = Some dp ->
  Fs.lookup (disk st) sp = Some (File c) ->
  Fs.is_dir (disk st) (Fs.parent dp) = true ->
  Fs.lookup (disk st) dp <> Some Dir ->
  sp <> dp ->
  exists st1,
    st1 = echoed (with_disk (<[dp := File c]> (disk st)) st) /\
    run_command host (Some "cp") (src :: destDir :: rest) st = (Prompted, st1) /\
    run_command host (Some "cp") (src :: destDir :: rest) st1 = (Prompted, echoed st1) /\
    forall c2,
      run_command host (Some "cp") (src :: destDir :: rest)
        (with_disk (<[sp := File c2]> (disk st1)) st1) =
      (Prompted,
       echoed (with_disk (<[dp := File c2]> (<[sp := File c2]> (disk st1))) st1)).
Proof.
  intros Hsp Hdp Hsrc Hpar Hnd Hne. eexists. split; [reflexivity|].
  assert (Hsr : sp <> "/") by (eapply not_root_of_file; eassumption).
  assert (Hdr : dp <> "/") by (eapply not_root_of_not_dir; eassumption).
  split; [|split].
  - apply (cp_command_ok src destDir rest st sp dp c); assumption.
  - rewrite (cp_command_ok src destDir rest _ sp dp c); simpl; try assumption.
    + rewrite insert_insert_eq. reflexivity.
    + rewrite lookup_insert_other by assumption. exact Hsrc.
    + apply is_dir_insert_file; assumption.
    + rewrite lookup_insert_same by assumption. discriminate.
  - intros c2.
    rewrite (cp_command_ok src destDir rest _ sp dp c2); simpl; try assumption.
    + reflexivity.
    + apply lookup_insert_same; assumption.
    + apply is_dir_insert_file.
      * apply is_dir_insert_file; assumption.
      * rewrite lookup_insert_other by assumption. rewrite Hsrc. discriminate.
    + rewrite lookup_insert_other by congruence.
      rewrite lookup_insert_same by assumption. discriminate.
Qed.

(** A piping command whose pipe does not go through ends as the pipe
    ends: [mv] deletes nothing. *)
Lemma piping_command_stopped (command : string) a b rest st sp dp r st' :
  In command streaming_commands ->
  Path.resolve (cwd host) [Some (currentDir st); Some a] = Some sp ->
  Path.resolve (cwd host) (target_args command (currentDir st) a b) = Some dp ->
  pipe_streams host (through_of host command) sp dp st = (r, st') ->
  r <> Ok tt ->
  dispatch host (Some command) (a :: b :: rest) st = (r, st').
Proof.
  intros Hin Hsp Hdp Hpipe Hr.
  pose proof (pipe_streams_not_doomed (through_of host command) sp dp st) as Hnd.
  rewrite Hpipe in Hnd. simpl in Hnd, Hin.
  repeat destruct Hin as [<-|Hin]; try contradiction;
    unfold target_args in Hdp; simpl in Hdp.
  - change (dispatch host (Some "cp") (a :: b :: rest))
      with (copyFile host (Some a) (Some b)).
    rewrite (copyFile_pipes _ _ _ _ _ Hsp Hdp). exact Hpipe.
  - change (dispatch host (Some "mv") (a :: b :: rest))
      with (moveFile host (Some a) (Some b)).
    unfold moveFile, bind at 1.
    rewrite (copyFile_pipes _ _ _ _ _ Hsp Hdp).
    change (through_of host "mv") with (@Some string) in Hpipe. rewrite Hpipe.
    destruct r as [[]| | |code|u| ]; try reflexivity; exfalso;
      [apply Hr | apply (Hnd u)]; reflexivity.
  - change (dispatch host (Some "compress") (a :: b :: rest))
      with (compressFile host (Some a) (Some b)).
    unfold compressFile, bind, get_currentDir, path_resolve.
    rewrite Hsp. simpl. rewrite Hdp. simpl. exact Hpipe.
  - change (dispatch host (Some "decompress") (a :: b :: rest))
      with (decompressFile host (Some a) (Some b)).
    unfold decompressFile, bind, get_currentDir, path_resolve.
    rewrite Hsp. simpl. rewrite Hdp. simpl. exact Hpipe.
Qed.

(** A piping command from a path that holds no regular file (a missing
    source that is itself the target apart): the process ends on the
    uncaught ['error'] of the read stream.  When the target is opened,
    nothing is printed.  When it is not, the rejection of the promise
    is caught and reported before the process ends, if the error of
    the write stream comes first: it does for a directory, whose read
    fails after its open, and it may for a missing source. *)
Lemma unreadable_source_command (command : string) a b rest st sp dp :
  In command streaming_commands ->
  Path.resolve (cwd host) [Some (currentDir st); Some a] = Some sp ->
  Path.resolve (cwd host) (target_args command (currentDir st) a b) = Some dp ->
  Fs.read (disk st) sp = None ->
  (Fs.lookup (disk st) sp = None -> sp <> dp) ->
  run_command host (Some command) (a :: b :: rest) st =
    (Crashed,
     match Fs.open_w (disk st) dp with
     | Some fs' => with_disk fs' st
     | None =>
         if Fs.is_dir (disk st) sp || write_opens_first host st sp dp
         then failed st else st
     end).
Proof.
  intros Hin Hsp Hdp Hread Hne. rewrite run_command_cases.
  unfold Fs.read in Hread. unfold Fs.is_dir.
  destruct (Fs.lookup (disk st) sp) as [[c|]|] eqn:Hsrc; [discriminate| |].
  - pose proof (pipe_streams_of_directory (through_of host command) sp dp st Hsrc)
      as Hpipe.
    destruct (Fs.open_w (disk st) dp) as [fs'|];
      rewrite (piping_command_stopped command a b rest st sp dp _ _ Hin Hsp Hdp Hpipe)
        by discriminate; reflexivity.
  - pose proof (pipe_streams_no_source (through_of host command) sp dp st Hsrc
                  (Hne eq_refl)) as Hpipe.
    destruct (Fs.open_w (disk st) dp) as [fs'|];
      [|destruct (write_opens_first host st sp dp)];
      rewrite (piping_command_stopped command a b rest st sp dp _ _ Hin Hsp Hdp Hpipe)
        by discriminate; reflexivity.
Qed.

(** C8, as the code has it.  For every invocation of copy or move
    whose source path holds nothing and whose target
    [destDir/basename(src)] is a place where a file can be (its
    directory exists, it is not a directory) other than the source path:
    an empty file is at the target afterwards, created, or emptied if
    one was there, and nothing else has changed.  The write stream has
    opened its file whatever the read stream does; the process has
    ended on the uncaught ['error'] of the read stream, with nothing
    printed, and [mv] has deleted nothing. *)
Theorem missing_source_leaves_empty_target (command : string)
    src destDir rest st sp dp :
  command = "cp" \/ command = "mv" ->
  Path.resolve (cwd host) [Some (currentDir st); Some src] = Some sp ->
  Path.resolve (cwd host)
    [Some (currentDir st); Some destDir; Some (Path.basename src)] = Some dp ->
  Fs.lookup (disk st) sp = None ->
  Fs.is_dir (disk st) (Fs.parent dp) = true ->
  Fs.lookup (disk st) dp <> Some Dir ->
  sp <> dp ->
  run_command host (Some command) (src :: destDir :: rest) st =
    (Crashed, with_disk (<[dp := File ""]> (disk st)) st) /\
  Fs.lookup
    (disk (snd (run_command host (Some command) (src :: destDir :: rest) st))) dp
  = Some (File "").
Proof.
  intros Hcmd Hsp Hdp Hsrc Hpar Hnd Hne.
  assert (Hrun : run_command host (Some command) (src :: destDir :: rest) st =
                 (Crashed, with_disk (<[dp := File ""]> (disk st)) st)).
  { rewrite (unreadable_source_command command src destDir rest st sp dp).
    - rewrite (open_w_ok _ _ Hpar Hnd). reflexivity.
    - destruct Hcmd as [-> | ->]; simpl; tauto.
    - exact Hsp.
    - destruct Hcmd as [-> | ->]; exact Hdp.
    - unfold Fs.read. rewrite Hsrc. reflexivity.
    - intros _. exact Hne. }
  split; [exact Hrun|]. rewrite Hrun. simpl.
  apply lookup_insert_same. eapply not_root_of_not_dir; eassumption.
Qed.

(** C10. For every invocation of compress or decompress whose source
    is a regular file and whose destination, resolved against the
    current directory as it is given, is a place where a file can be:
    the output is written at that very path (the name of the source
    plays no part in it), whatever was there before; it is what the
    codec lets through of the bytes read. *)
Theorem compress_writes_at_resolved_dest src dest rest st sp dp c :
  Path.resolve (cwd host) [Some (currentDir st); Some src] = Some sp ->
  Path.resolve (cwd host) [Some (currentDir st); Some dest] = Some dp ->
  Fs.lookup (disk st) sp = Some (File c) ->
  Fs.is_dir (disk st) (Fs.parent dp) = true ->
  Fs.lookup (disk st) dp <> Some Dir ->
  run_command host (Some "compress") (src :: dest :: rest) st =
    (Prompted,
     echoed (with_disk
               (<[dp := File (brotliCompress host
                                (if String.eqb sp dp then "" else c))]> (disk st))
               st)) /\
  forall out,
    brotliDecompress host (if String.eqb sp dp then "" else c) = Some out ->
    run_command host (Some "decompress") (src :: dest :: rest) st =
      (Prompted, echoed (with_disk (<[dp := File out]> (disk st)) st)).
Proof.
  intros Hsp Hdp Hsrc Hpar Hnd. split; [|intros out Hout]; rewrite run_command_cases.
  - change (dispatch host (Some "compress") (src :: dest :: rest))
      with (compressFile host (Some src) (Some dest)).
    unfold compressFile, bind, get_currentDir, path_resolve.
    rewrite Hsp. simpl. rewrite Hdp. simpl.
    erewrite pipe_streams_ok; eauto.
  - change (dispatch host (Some "decompress") (src :: dest :: rest))
      with (decompressFile host (Some src) (Some dest)).
    unfold decompressFile, bind, get_currentDir, path_resolve.
    rewrite Hsp. simpl. rewrite Hdp. simpl.
    erewrite pipe_streams_ok; eauto.
Qed.

End Streams.

(** ** Paths in normal form *)

Section NormalForm.

Lemma chars_app (s t : string) : JS.chars (s +:+ t) = JS.chars s ++ JS.chars t.
Proof. induction s as [|c s IH]; simpl; [reflexivity|]. f_equal. exact IH. Qed.

Lemma str_chars (s : string) : JS.str (JS.chars s) = s.
Proof. apply string_of_list_ascii_of_string. Qed.

Lemma split_on_nonempty sep l : JS.split_on sep l <> [].
Proof.
  destruct l as [|c l]; simpl; [discriminate|].
  destruct (Ascii.eqb c sep); [discriminate|].
  destruct (JS.split_on sep l); discriminate.
Qed.

(** A text without the separator is one field. *)
Lemma split_on_no_sep sep l :
  ~ In sep l -> JS.split_on sep l = [l].
Proof.
  induction l as [|c l IH]; intros Hin; simpl; [reflexivity|].
  destruct (Ascii.eqb_spec c sep) as [->|_].
  - exfalso. apply Hin. left. reflexivity.
  - rewrite IH; [reflexivity|]. intros H. apply Hin. right. exact H.
Qed.

Lemma split_on_snoc sep l :
  JS.split_on sep (l ++ [sep]) = JS.split_on sep l ++ [[]].
Proof.
  induction l as [|c l IH]; simpl.
  - rewrite Ascii.eqb_refl. reflexivity.
  - destruct (Ascii.eqb c sep); [rewrite IH; reflexivity|].
    rewrite IH. destruct (JS.split_on sep l) eqn:E; [|reflexivity].
    exfalso. eapply split_on_nonempty; eassumption.
Qed.

Lemma join_cons sep x y ys :
  JS.join sep (x :: y :: ys) = x +:+ sep +:+ JS.join sep (y :: ys).
Proof. reflexivity. Qed.

(** [s.split('/').join('/')] is [s]. *)
Lemma join_split (s : string) : JS.join "/" (JS.split Path.slash s) = s.
Proof.
  unfold JS.split. induction s as [|c s IH]; [reflexivity|].
  change (JS.chars (String c s)) with (c :: JS.chars s). simpl JS.split_on.
  destruct (JS.split_on Path.slash (JS.chars s)) as [|seg segs] eqn:E;
    [exfalso; eapply split_on_nonempty; eassumption|].
  destruct (Ascii.eqb_spec c Path.slash) as [->|_].
  - simpl map. change (JS.str []) with "". rewrite join_cons.
    simpl map in IH. rewrite IH. reflexivity.
  - simpl map in *. change (JS.str (c :: seg)) with (String c (JS.str seg)).
    destruct segs as [|seg' segs]; simpl in *; rewrite <- IH; reflexivity.
Qed.

Lemma norm_plain_segments segs : forall res,
  forallb plain_segment segs = true ->
  fold_left (Path.norm_step false) segs res = rev segs ++ res.
Proof.
  induction segs as [|seg segs IH]; intros res H; simpl in *; [reflexivity|].
  apply andb_prop in H as [Hseg Hsegs]. rewrite IH by assumption.
  unfold Path.norm_step, plain_segment in *.
  destruct (String.eqb seg ""), (String.eqb seg "."), (String.eqb seg "..");
    try discriminate.
  simpl. rewrite <- app_assoc. reflexivity.
Qed.

(** [path.resolve] lets an absolute path in normal form through
    unchanged. *)
Lemma resolve_canonical cwd (p : string) :
  canonical p = true -> Path.resolve cwd [Some p] = Some p.
Proof.
  unfold canonical. intros H. apply andb_prop in H as [Habs H].
  destruct p as [|c p]; [discriminate|].
  simpl in Habs. apply Ascii.eqb_eq in Habs. subst c.
  unfold Path.resolve. simpl rev. simpl Path.resolve_loop.
  f_equal. unfold Path.normalizeString, JS.split.
  rewrite chars_app, chars_app. change (JS.chars "") with (@nil ascii).
  rewrite app_nil_r. change (JS.chars "/") with [Path.slash].
  rewrite split_on_snoc, map_app, fold_left_app.
  pose proof (join_split (String Path.slash p)) as Hjoin. unfold JS.split in *.
  change (JS.chars (String Path.slash p)) with (Path.slash :: JS.chars p) in *.
  simpl JS.split_on in *.
  destruct (JS.split_on Path.slash (JS.chars p)) as [|seg segs] eqn:E;
    [exfalso; eapply split_on_nonempty; eassumption|].
  change (map JS.str ([] :: seg :: segs)) with ("" :: map JS.str (seg :: segs)) in *.
  change (negb true) with false.
  change (fold_left (Path.norm_step false) ("" :: map JS.str (seg :: segs)) [])
    with (fold_left (Path.norm_step false) (map JS.str (seg :: segs)) []).
  apply orb_prop in H as [Hroot|Hplain].
  - apply String.eqb_eq in Hroot. injection Hroot as ->.
    simpl in E. injection E as <- <-. reflexivity.
  - rewrite (norm_plain_segments (map JS.str (seg :: segs)) [] Hplain).
    rewrite app_nil_r. change (map JS.str [[]]) with [""].
    change (fold_left (Path.norm_step false) [""] ?x) with x.
    rewrite rev_involutive. exact Hjoin.
Qed.

End NormalForm.

(** ** Rename *)

Section Rename.

Variable host : Host.

(** An absolute last argument is all that [path.resolve] looks at. *)
Lemma resolve_absolute_last cwd (base : option string) (name : string) :
  Path.is_absolute name = true ->
  Path.resolve cwd [base; Some name] = Path.resolve cwd [Some name].
Proof.
  intros Habs. unfold Path.resolve. simpl rev.
  destruct name as [|c name]; [discriminate|].
  simpl Path.resolve_loop. simpl in Habs. rewrite Habs. reflexivity.
Qed.

(** C9. For every invocation of [rn old newName] with an absolute
    new name: the path the file is renamed to is the new name
    resolved on its own, whatever the cursor and the parent of the
    old path are; it is the new name itself when that is in normal
    form.  A regular file at the old path is moved there when a file
    can be there (its directory exists, it is not a directory). *)
Theorem rn_to_absolute_name old newName rest st oldp c target :
  Path.is_absolute newName = true ->
  Path.resolve (cwd host) [Some (currentDir st); Some old] = Some oldp ->
  Path.resolve (cwd host) [Some newName] = Some target ->
  Fs.lookup (disk st) oldp = Some (File c) ->
  Fs.is_dir (disk st) (Fs.parent target) = true ->
  Fs.lookup (disk st) target <> Some Dir ->
  Path.resolve (cwd host) [Some (Path.dirname oldp); Some newName] = Some target /\
  (canonical newName = true -> target = newName) /\
  run_command host (Some "rn") (old :: newName :: rest) st =
    (Prompted,
     echoed (with_disk (<[target := File c]> (delete oldp (disk st))) st)).
Proof.
  intros Habs Hold Htarget Hfile Hpar Hnd.
  assert (Hnew : Path.resolve (cwd host) [Some (Path.dirname oldp); Some newName]
                 = Some target)
    by (rewrite resolve_absolute_last; assumption).
  split; [exact Hnew|]. split.
  { intros Hcan. apply (resolve_canonical (cwd host)) in Hcan. congruence. }
  rewrite run_command_cases.
  change (dispatch host (Some "rn") (old :: newName :: rest))
    with (renameFile host (Some old) (Some newName)).
  unfold renameFile, bind, get_currentDir, path_resolve, get_disk.
  rewrite Hold. simpl. rewrite Hnew. simpl.
  assert (Hroot : oldp <> "/") by (intros ->; discriminate Hfile).
  assert (Hmap : disk st !! oldp = Some (File c)).
  { unfold Fs.lookup in Hfile. destruct (String.eqb_spec oldp "/"); congruence. }
  unfold Fs.renameSync. rewrite Hfile.
  destruct (String.eqb_spec oldp "/") as [|_]; [contradiction|].
  destruct (String.eqb_spec oldp target) as [<-|Hne].
  - simpl. rewrite insert_delete_eq, (insert_id _ _ _ Hmap). reflexivity.
  - destruct (Fs.lookup (disk st) target) as [[c'|]|]; [reflexivity|congruence|].
    rewrite Hpar. reflexivity.
Qed.

End Rename.

(** ** The display name *)

Section Username.

Lemma find_first {A} (p : A -> bool) (pre post : list A) (x : A) :
  forallb (fun a => negb (p a)) pre = true -> p x = true ->
  JS.find p (pre ++ x :: post) = Some x.
Proof.
  unfold JS.find. induction pre as [|a pre IH]; simpl; intros Hpre Hx.
  - rewrite Hx. reflexivity.
  - apply andb_prop in Hpre as [Ha Hpre].
    destruct (p a); [discriminate|]. apply IH; assumption.
Qed.

Lemma find_none {A} (p : A -> bool) (l : list A) :
  forallb (fun a => negb (p a)) l = true -> JS.find p l = None.
Proof.
  unfold JS.find. induction l as [|a l IH]; simpl; intros H; [reflexivity|].
  apply andb_prop in H as [Ha H]. destruct (p a); [discriminate|]. apply IH, H.
Qed.

Lemma startsWith_append (p s : string) : JS.startsWith (p +:+ s) p = true.
Proof.
  unfold JS.startsWith. induction p as [|a p IH]; simpl.
  - destruct s; reflexivity.
  - destruct (ascii_dec a a); [exact IH | congruence].
Qed.

(** The field after the first [=] of [--username=name] is [name] when
    [name] has no [=] of its own. *)
Lemma username_of_flag (name : string) :
  ~ In "="%char (JS.chars name) ->
  username_of ("--username=" +:+ name) = name.
Proof.
  intros Hname. unfold username_of, JS.split.
  rewrite chars_app.
  change (JS.chars "--username=")
    with (JS.chars "--username" ++ ["="%char]).
  rewrite <- app_assoc. simpl.
  rewrite (split_on_no_sep _ _ Hname). simpl. apply str_chars.
Qed.

(** C7, as the code has it.  When the first argument that starts
    with [--username=] is [--username=name] and [name] holds no [=],
    the display name is [name] as it is written, the empty name
    included, in the greeting and in the farewell; when no argument
    starts with [--username=], it is [Anonymous]. *)
Theorem username_from_first_flag (h : Host) :
  (forall pre post name,
     argv h = pre ++ ("--username=" +:+ name) :: post ->
     forallb (fun arg => negb (JS.startsWith arg "--username=")) pre = true ->
     ~ In "="%char (JS.chars name) ->
     username h = name /\
     greeting h = "Welcome to the File Manager, " +:+ name +:+ "!" /\
     farewell h = "Thank you for using File Manager, " +:+ name +:+ ", goodbye!") /\
  (forallb (fun arg => negb (JS.startsWith arg "--username=")) (argv h) = true ->
     username h = "Anonymous").
Proof.
  split.
  - intros pre post name Hargv Hpre Hname.
    assert (Hu : username h = name).
    { unfold username.
      rewrite Hargv, (find_first _ pre post _ Hpre); [|apply startsWith_append].
      change (("--username=" +:+ name) =? "") with false. cbv iota.
      apply username_of_flag, Hname. }
    unfold greeting, farewell. rewrite Hu. repeat split.
  - intros Hnone. unfold username. rewrite (find_none _ _ Hnone). reflexivity.
Qed.

End Username.

(** ** The tokenizer *)

Section TokenizerFacts.

Lemma plain_split l : forall run rest,
  Tokenizer.plain l = (run, rest) -> l = run ++ rest.
Proof.
  induction l as [|c l IH]; simpl; intros run rest H.
  - inversion H. reflexivity.
  - destruct (JS.is_space c || JS.is_quote c).
    + inversion H. reflexivity.
    + destruct (Tokenizer.plain l) as [run' rest'].
      inversion H; subst. simpl. f_equal. apply IH. reflexivity.
Qed.

Lemma unquoted_split l : forall body rest,
  Tokenizer.unquoted l = (body, rest) -> l = body ++ rest.
Proof.
  induction l as [|c l IH]; simpl; intros body rest H.
  - inversion H. reflexivity.
  - destruct (JS.is_quote c).
    + inversion H. reflexivity.
    + destruct (Tokenizer.unquoted l) as [body' rest'].
      inversion H; subst. simpl. f_equal. apply IH. reflexivity.
Qed.

(** Every turn of the group consumes at least one code unit. *)
Lemma group_shrinks l m rest :
  Tokenizer.group l = Some (m, rest) -> length rest < length l.
Proof.
  unfold Tokenizer.group, Tokenizer.quoted. intros H.
  destruct (Tokenizer.plain l) as [[|c run] rest'] eqn:Hplain.
  - destruct l as [|q l]; [discriminate|].
    destruct (JS.is_quote q); [|discriminate].
    destruct (Tokenizer.unquoted l) as [body [|q' rest'']] eqn:Hun; [discriminate|].
    inversion H; subst. apply unquoted_split in Hun. subst l.
    simpl. rewrite length_app. simpl. lia.
  - inversion H; subst. apply plain_split in Hplain. subst l.
    simpl. rewrite length_app. lia.
Qed.

Lemma group_plus_shrinks fuel : forall l m rest,
  Tokenizer.group_plus fuel l = Some (m, rest) -> length rest < length l.
Proof.
  induction fuel as [|fuel IH]; simpl; intros l m rest H; [discriminate|].
  destruct (Tokenizer.group l) as [[m1 rest1]|] eqn:Hg; [|discriminate].
  apply group_shrinks in Hg.
  destruct (Tokenizer.group_plus fuel rest1) as [[m2 rest2]|] eqn:Hp.
  - inversion H; subst. apply IH in Hp. lia.
  - inversion H; subst. exact Hg.
Qed.

(** The fuel of [group_plus] is never what stops it. *)
Lemma group_plus_fuel f1 : forall f2 l,
  length l < f1 -> length l < f2 ->
  Tokenizer.group_plus f1 l = Tokenizer.group_plus f2 l.
Proof.
  induction f1 as [|f1 IH]; intros f2 l H1 H2; [lia|].
  destruct f2 as [|f2]; [lia|]. simpl.
  destruct (Tokenizer.group l) as [[m rest]|] eqn:Hg; [|reflexivity].
  apply group_shrinks in Hg.
  rewrite (IH f2 rest) by lia. reflexivity.
Qed.

(** Nor is the fuel of [match_all]. *)
Lemma match_all_fuel f1 : forall f2 l,
  length l < f1 -> length l < f2 ->
  Tokenizer.match_all f1 l = Tokenizer.match_all f2 l.
Proof.
  induction f1 as [|f1 IH]; intros f2 l H1 H2; [lia|].
  destruct f2 as [|f2]; [lia|]. cbn [Tokenizer.match_all].
  destruct (Tokenizer.group_plus (S (length l)) l) as [[m rest]|] eqn:Hp.
  - apply group_plus_shrinks in Hp. rewrite (IH f2 rest) by lia. reflexivity.
  - destruct l as [|c l]; [reflexivity|]. simpl in *. apply IH; lia.
Qed.

(** A code unit that is neither white space nor a quote starts a match. *)
Lemma group_plain c l :
  is_plain c = true -> exists m rest, Tokenizer.group (c :: l) = Some (m, rest).
Proof.
  unfold is_plain, Tokenizer.group. intros H. simpl.
  destruct (JS.is_space c || JS.is_quote c); [discriminate|].
  destruct (Tokenizer.plain l) as [run rest]. eauto.
Qed.

Lemma group_plus_of_group fuel l m rest :
  Tokenizer.group l = Some (m, rest) ->
  exists m' rest', Tokenizer.group_plus (S fuel) l = Some (m', rest').
Proof.
  intros H. simpl. rewrite H.
  destruct (Tokenizer.group_plus fuel rest) as [[m2 rest2]|]; eauto.
Qed.

(** A text with such a code unit has a match. *)
Lemma match_all_plain l : forall fuel,
  length l < fuel -> existsb is_plain l = true -> Tokenizer.match_all fuel l <> [].
Proof.
  induction l as [|c l IH]; intros fuel Hfuel Hex; [discriminate|].
  destruct fuel as [|fuel]; [lia|]. cbn [Tokenizer.match_all].
  destruct (Tokenizer.group_plus (S (length (c :: l))) (c :: l)) as [[m rest]|] eqn:Hp;
    [discriminate|].
  simpl in Hex. destruct (is_plain c) eqn:Hc.
  - exfalso. destruct (group_plain c l Hc) as (m & rest & Hg).
    destruct (group_plus_of_group (length (c :: l)) _ _ _ Hg) as (m' & rest' & Hp').
    congruence.
  - simpl in Hex. apply IH; [simpl in Hfuel; lia | exact Hex].
Qed.

(** A quote with a quote after it starts a match. *)
Lemma quoted_closed q l :
  JS.is_quote q = true -> existsb JS.is_quote l = true ->
  exists m rest, Tokenizer.quoted (q :: l) = Some (m, rest).
Proof.
  intros Hq Hex. unfold Tokenizer.quoted. rewrite Hq.
  assert (H : exists body q' rest, Tokenizer.unquoted l = (body, q' :: rest)).
  { induction l as [|c l IH]; [discriminate|]. simpl in *.
    destruct (JS.is_quote c); [eauto|].
    destruct (IH Hex) as (body & q' & rest & ->). eauto. }
  destruct H as (body & q' & rest & ->). eauto.
Qed.

Lemma drop_spaces_head l c t :
  JS.drop_spaces l = c :: t -> JS.is_space c = false.
Proof.
  induction l as [|a l IH]; simpl; [discriminate|].
  destruct (JS.is_space a) eqn:Ha; [exact IH|].
  intros H. inversion H; subst. exact Ha.
Qed.

Lemma drop_spaces_snoc l c :
  JS.is_space c = false -> exists l', JS.drop_spaces (l ++ [c]) = l' ++ [c].
Proof.
  intros Hc. induction l as [|a l IH]; simpl.
  - rewrite Hc. exists []. reflexivity.
  - destruct (JS.is_space a); [exact IH|]. exists (a :: l). reflexivity.
Qed.

(** A trimmed text neither starts nor ends with white space. *)
Lemma trim_ends (line : string) :
  match JS.chars (JS.trim line) with
  | c :: _ => JS.is_space c = false
  | [] => True
  end /\
  match rev (JS.chars (JS.trim line)) with
  | c :: _ => JS.is_space c = false
  | [] => True
  end.
Proof.
  unfold JS.trim, JS.chars, JS.str. rewrite list_ascii_of_string_of_list_ascii.
  rewrite rev_involutive. split.
  - destruct (JS.drop_spaces (list_ascii_of_string line)) as [|c0 d] eqn:Hd;
      [exact I|].
    apply drop_spaces_head in Hd. simpl rev.
    destruct (drop_spaces_snoc (rev d) c0 Hd) as [l' ->].
    rewrite rev_app_distr. simpl. exact Hd.
  - destruct (JS.drop_spaces (rev _)) as [|c t] eqn:Hd; [exact I|].
    eapply drop_spaces_head; eassumption.
Qed.

Lemma existsb_last {A} (P : A -> bool) (l : list A) x r :
  rev l = x :: r -> P x = true -> existsb P l = true.
Proof.
  intros Hrev Hx. rewrite <- (rev_involutive l), Hrev. simpl.
  rewrite existsb_app. simpl. rewrite Hx. apply orb_true_iff. right. reflexivity.
Qed.

(** A text that starts and ends with something else than white space
    and has no match is one double quote. *)
Lemma no_match_lone_quote (l : list ascii) :
  match l with c :: _ => JS.is_space c = false | [] => False end ->
  match rev l with c :: _ => JS.is_space c = false | [] => True end ->
  Tokenizer.match_all (S (length l)) l = [] ->
  l = [JS.quote].
Proof.
  destruct l as [|c l]; [contradiction|]. intros Hhead Hlast Hnone.
  destruct (JS.is_quote c) eqn:Hq.
  - apply Ascii.eqb_eq in Hq. subst c.
    destruct l as [|c' l]; [reflexivity|]. exfalso.
    destruct (rev (JS.quote :: c' :: l)) as [|x r] eqn:Hrev.
    { apply (f_equal (@length ascii)) in Hrev. rewrite length_rev in Hrev.
      discriminate Hrev. }
    assert (Hrev' : exists r', rev (c' :: l) = x :: r').
    { change (JS.quote :: c' :: l) with ([JS.quote] ++ c' :: l) in Hrev.
      rewrite rev_app_distr in Hrev. simpl in Hrev.
      destruct (rev l ++ [c']) as [|y r'] eqn:E;
        [destruct (rev l); discriminate E|].
      simpl in Hrev. inversion Hrev; subst. eauto. }
    destruct Hrev' as [r' Hrev'].
    destruct (JS.is_quote x) eqn:Hx.
    + assert (Hex : existsb JS.is_quote (c' :: l) = true)
        by (eapply existsb_last; eassumption).
      destruct (quoted_closed JS.quote (c' :: l) eq_refl Hex) as (m & rest & Hquoted).
      assert (Hg : Tokenizer.group (JS.quote :: c' :: l) = Some (m, rest))
        by exact Hquoted.
      destruct (group_plus_of_group (length (JS.quote :: c' :: l)) _ _ _ Hg)
        as (m' & rest' & Hp).
      cbn [Tokenizer.match_all] in Hnone. rewrite Hp in Hnone. discriminate.
    + assert (Hex : existsb is_plain (JS.quote :: c' :: l) = true).
      { eapply existsb_last; [exact Hrev|]. unfold is_plain. rewrite Hlast, Hx.
        reflexivity. }
      eapply match_all_plain; [|exact Hex|exact Hnone]. lia.
  - exfalso.
    assert (Hex : existsb is_plain (c :: l) = true).
    { simpl. unfold is_plain at 1. rewrite Hhead, Hq. reflexivity. }
    eapply match_all_plain; [|exact Hex|exact Hnone]. lia.
Qed.

Lemma length_chars (s : string) : length (JS.chars s) = String.length s.
Proof. induction s as [|c s IH]; simpl; [reflexivity|]. f_equal. exact IH. Qed.

(** The lines without tokens: a line that is not empty once trimmed
    makes [parseInput] throw exactly when it is one double quote. *)
Lemma untokenizable_iff_lone_quote (line : string) :
  JS.trim line <> "" ->
  (Tokenizer.parseInput (JS.trim line) = None <-> JS.trim line = lone_quote).
Proof.
  intros Hne. split; [|intros ->; reflexivity].
  unfold Tokenizer.parseInput, Tokenizer.match_regex. intros Hnone.
  destruct (Tokenizer.match_all (S (String.length (JS.trim line)))
              (JS.chars (JS.trim line))) as [|m ms] eqn:Hm; [|discriminate].
  rewrite <- length_chars in Hm.
  destruct (trim_ends line) as [Hhead Hlast].
  assert (Hl : JS.chars (JS.trim line) = [JS.quote]).
  { apply no_match_lone_quote; try assumption.
    destruct (JS.chars (JS.trim line)) as [|c l] eqn:E; [|exact Hhead].
    apply Hne. rewrite <- (string_of_list_ascii_of_string (JS.trim line)).
    unfold JS.chars in E. rewrite E. reflexivity. }
  rewrite <- (string_of_list_ascii_of_string (JS.trim line)).
  unfold JS.chars in Hl. rewrite Hl. reflexivity.
Qed.

End TokenizerFacts.

(** ** A line that cannot be tokenized *)

Section Untokenizable.

Variable host : Host.

(** The call of [parseInput] is before the [try]: when it throws,
    nothing is printed, the cursor is not echoed, the prompt is not
    shown again, and the exception leaves the handler. *)
Lemma untokenizable_line_rejects (line : string) (st : state) :
  JS.trim line <> "" -> Tokenizer.parseInput (JS.trim line) = None ->
  on_line host line st = (Rejected, st).
Proof.
  intros Hne Hparse. unfold on_line.
  destruct (String.eqb_spec (JS.trim line) ""); [contradiction|].
  rewrite Hparse. reflexivity.
Qed.

(** C2, on the code.  The line that is one double quote is not empty
    and has no token; its handling prints nothing and ends with the
    exception out of the handler, and the session stops there: the
    lines after it are not handled. *)
Theorem lone_quote_leaves_the_handler (st : state) (rest : list string) :
  JS.trim lone_quote <> "" /\
  Tokenizer.parseInput (JS.trim lone_quote) = None /\
  on_line host lone_quote st = (Rejected, st) /\
  session host (lone_quote :: rest) st = (Rejected, st).
Proof.
  assert (H : on_line host lone_quote st = (Rejected, st)) by reflexivity.
  split; [discriminate|]. split; [reflexivity|]. split; [exact H|].
  change (session host (lone_quote :: rest) st)
    with (match on_line host lone_quote st with
          | (Prompted, st') => session host rest st'
          | stop => stop
          end).
  rewrite H. reflexivity.
Qed.

End Untokenizable.

(** * Closed instances *)

(** The scenario of the specification: at the home directory,
    [mkdir sub], [cd sub], [ls], [add f.txt], [ls]. *)
Example scenario_listing :
  let st := after "ls" (after "add f.txt" (after "ls" (after "cd sub2"
              (after "mkdir sub2" sample_state)))) in
  currentDir st = "/home/u/sub2" /\
  console st =
    console sample_state ++
    [Log "You are currently in /home/u"; Prompt;
     Log "You are currently in /home/u/sub2"; Prompt;
     Table []; Log "You are currently in /home/u/sub2"; Prompt;
     Log "You are currently in /home/u/sub2"; Prompt;
     Table [("f.txt", "file")]; Log "You are currently in /home/u/sub2"; Prompt].
Proof. vm_compute. split; reflexivity. Qed.

(** A quoted argument is one token, without its quotes. *)
Example tokenize_quoted :
  Tokenizer.parseInput
    ("cp " +:+ lone_quote +:+ "my file.txt" +:+ lone_quote +:+ " dest")
  = Some ["cp"; "my file.txt"; "dest"].
Proof. reflexivity. Qed.

(** An unknown command: [Invalid input], the echo, the prompt. *)
Example unknown_command :
  on_line sample_host "foobar" sample_state =
    (Prompted, echoed (printed (Log "Invalid input") sample_state)).
Proof. reflexivity. Qed.

(** [cd] into a directory that is not there. *)
Example cd_nonexistent :
  on_line sample_host "cd nonexistentDir" sample_state = (Prompted, failed sample_state).
Proof. reflexivity. Qed.

(** [cd] into a subdirectory, then [up]: the cursor is back. *)
Example cd_then_up :
  currentDir (after "cd sub" sample_state) = "/home/u/sub" /\
  currentDir (after "up" (after "cd sub" sample_state)) = currentDir sample_state.
Proof. split; reflexivity. Qed.

(** [up] at the root changes nothing. *)
Example up_at_root (st : state) :
  currentDir st = "/" -> goUp st = (Ok tt, st).
Proof. intros H. unfold goUp, bind, get_currentDir. rewrite H. reflexivity. Qed.

(** [mv a.txt sub]: the source is gone, the target holds its bytes. *)
Example mv_moves :
  fst (on_line sample_host "mv a.txt sub" sample_state) = Prompted /\
  Fs.lookup (disk (after "mv a.txt sub" sample_state)) "/home/u/a.txt" = None /\
  Fs.lookup (disk (after "mv a.txt sub" sample_state)) "/home/u/sub/a.txt"
  = Some (File "hi").
Proof. vm_compute. repeat split; reflexivity. Qed.

(** [mv] onto the directory of the source itself: the copy phase
    empties the file and succeeds, then the file is deleted. *)
Example mv_onto_itself :
  fst (on_line sample_host "mv a.txt ." sample_state) = Prompted /\
  Fs.lookup (disk (after "mv a.txt ." sample_state)) "/home/u/a.txt" = None.
Proof. vm_compute. split; reflexivity. Qed.

(** [decompress] of bytes the codec refuses: the process ends, the
    target is left empty. *)
Example decompress_garbage :
  fst (on_line sample_host "decompress a.txt out" sample_state) = Crashed /\
  Fs.lookup (disk (after "decompress a.txt out" sample_state)) "/home/u/out"
  = Some (File "").
Proof. vm_compute. split; reflexivity. Qed.

(** C1, counterexample.  [a.txt] holds two bytes; [add a.txt] prints
    no failure message and leaves it empty: neither half of the claim
    holds. *)
Lemma add_existing_file_counterexample :
  Fs.lookup (disk sample_state) "/home/u/a.txt" = Some (File "hi") /\
  ~ In (Log "Operation failed") (console (after "add a.txt" sample_state)) /\
  Fs.lookup (disk (after "add a.txt" sample_state)) "/home/u/a.txt" <> Some (File "hi").
Proof.
  split; [reflexivity|]. split.
  - vm_compute. intros H. repeat destruct H as [H|H]; try discriminate H. exact H.
  - vm_compute. discriminate.
Qed.

(** The scenario [add f.txt] twice: the file has zero length, and the
    second call has not failed either. *)
Example add_twice :
  let st := after "add f.txt" (after "add f.txt" sample_state) in
  Fs.lookup (disk st) "/home/u/f.txt" = Some (File "") /\
  console st = console sample_state ++
               [Log "You are currently in /home/u"; Prompt;
                Log "You are currently in /home/u"; Prompt].
Proof. vm_compute. split; reflexivity. Qed.

Lemma add_existing_file_truncates_witness :
  run_command sample_host (Some "add") ["a.txt"] sample_state =
    (Prompted,
     echoed (with_disk (<["/home/u/a.txt" := File ""]> (disk sample_state)) sample_state)).
Proof.
  apply (add_existing_file_truncates sample_host "a.txt" [] sample_state
           "/home/u/a.txt" "hi"); reflexivity.
Defined.

Lemma mv_deletes_only_after_copy_witness :
  (moveFile sample_host (Some "a.txt") (Some "nodir") sample_state
   = copyFile sample_host (Some "a.txt") (Some "nodir") sample_state /\
   forall sp n,
     Path.resolve (cwd sample_host) [Some (currentDir sample_state); Some "a.txt"] = Some sp ->
     Fs.lookup (disk sample_state) sp = Some n ->
     Fs.lookup (disk (snd (moveFile sample_host (Some "a.txt") (Some "nodir") sample_state))) sp
     = Some n) /\
  fst (copyFile sample_host (Some "a.txt") (Some "sub") sample_state) = Ok tt.
Proof.
  split.
  - apply (proj1 (mv_deletes_only_after_copy sample_host (Some "a.txt") (Some "nodir")
                    sample_state)).
    vm_compute. discriminate.
  - apply (proj2 (mv_deletes_only_after_copy sample_host (Some "a.txt") (Some "sub")
                    sample_state) "/home/u/a.txt" (File "hi")); reflexivity.
Defined.

Lemma cursor_moved_only_by_up_and_cd_witness :
  currentDir (snd (on_line sample_host "mv a.txt sub" sample_state))
  = currentDir sample_state.
Proof.
  apply cursor_moved_only_by_up_and_cd; vm_compute; discriminate.
Defined.

(** C6, counterexample.  [cp a.txt .] at the directory of [a.txt]: the
    target is the source; no failure is printed, and the two bytes of
    the source are not at the target afterwards, which is empty. *)
Lemma cp_onto_itself_counterexample :
  Path.resolve (cwd sample_host) [Some (currentDir sample_state); Some "a.txt"]
  = Some "/home/u/a.txt" /\
  Path.resolve (cwd sample_host)
    [Some (currentDir sample_state); Some "."; Some (Path.basename "a.txt")]
  = Some "/home/u/a.txt" /\
  Fs.lookup (disk sample_state) "/home/u/a.txt" = Some (File "hi") /\
  fst (on_line sample_host "cp a.txt ." sample_state) = Prompted /\
  Fs.lookup (disk (after "cp a.txt ." sample_state)) "/home/u/a.txt" = Some (File "") /\
  Fs.lookup (disk (after "cp a.txt ." sample_state)) "/home/u/a.txt" <> Some (File "hi").
Proof. vm_compute. repeat split; try reflexivity. discriminate. Qed.

Lemma cp_writes_source_to_target_witness :
  exists st1,
    st1 = echoed (with_disk (<["/home/u/sub/a.txt" := File "hi"]> (disk sample_state))
                    sample_state) /\
    run_command sample_host (Some "cp") ["a.txt"; "sub"] sample_state = (Prompted, st1) /\
    run_command sample_host (Some "cp") ["a.txt"; "sub"] st1 = (Prompted, echoed st1) /\
    forall c2,
      run_command sample_host (Some "cp") ["a.txt"; "sub"]
        (with_disk (<["/home/u/a.txt" := File c2]> (disk st1)) st1) =
      (Prompted,
       echoed (with_disk (<["/home/u/sub/a.txt" := File c2]>
                            (<["/home/u/a.txt" := File c2]> (disk st1))) st1)).
Proof.
  apply (cp_writes_source_to_target sample_host "a.txt" "sub" [] sample_state
           "/home/u/a.txt" "/home/u/sub/a.txt" "hi");
    try reflexivity; vm_compute; discriminate.
Defined.

(** C7, counterexample.  [--username=] has no name value: the display
    name is the empty string, not [Anonymous]. *)
Lemma username_without_value_counterexample :
  username (sample_host_with ["--username="]) = "" /\
  username (sample_host_with ["--username="]) <> "Anonymous" /\
  greeting (sample_host_with ["--username="]) = "Welcome to the File Manager, !".
Proof. vm_compute. repeat split; try reflexivity. discriminate. Qed.

(** A name with [=] in it is cut at its first [=]. *)
Example username_cut_at_equals : username (sample_host_with ["--username=a=b"]) = "a".
Proof. reflexivity. Qed.

(** [--username] without [=] is not the flag. *)
Example username_flag_without_equals :
  username (sample_host_with ["--username"]) = "Anonymous".
Proof. reflexivity. Qed.

Lemma username_from_first_flag_witness :
  (username sample_host = "Ann" /\
   greeting sample_host = "Welcome to the File Manager, " +:+ "Ann" +:+ "!" /\
   farewell sample_host = "Thank you for using File Manager, " +:+ "Ann" +:+ ", goodbye!") /\
  username (sample_host_with ["-v"]) = "Anonymous".
Proof.
  split.
  - apply (proj1 (username_from_first_flag sample_host) [] [] "Ann"); try reflexivity.
    vm_compute. intros H. repeat destruct H as [H|H]; try discriminate H. exact H.
  - apply (proj2 (username_from_first_flag (sample_host_with ["-v"]))). reflexivity.
Defined.

(** C8, counterexample.  Nothing is at [ghost] and there is no
    directory [nodir]: after [cp ghost nodir], and after [mv ghost nodir],
    nothing is at the target [nodir/ghost].  No file was created: the
    file system is as it was, whichever of the two opens fails first. *)
Lemma missing_source_no_target_counterexample :
  Path.resolve (cwd sample_host) [Some (currentDir sample_state); Some "ghost"]
  = Some "/home/u/ghost" /\
  Path.resolve (cwd sample_host)
    [Some (currentDir sample_state); Some "nodir"; Some (Path.basename "ghost")]
  = Some "/home/u/nodir/ghost" /\
  Fs.lookup (disk sample_state) "/home/u/ghost" = None /\
  Fs.lookup (disk (after "cp ghost nodir" sample_state)) "/home/u/nodir/ghost" = None /\
  Fs.lookup (disk (after "mv ghost nodir" sample_state)) "/home/u/nodir/ghost" = None /\
  on_line sample_host "cp ghost nodir" sample_state = (Crashed, sample_state) /\
  on_line (write_first sample_host) "cp ghost nodir" sample_state
  = (Crashed, failed sample_state).
Proof. vm_compute. repeat split; reflexivity. Qed.

Lemma missing_source_leaves_empty_target_witness :
  run_command sample_host (Some "mv") ["ghost"; "sub"] sample_state =
    (Crashed,
     with_disk (<["/home/u/sub/ghost" := File ""]> (disk sample_state)) sample_state) /\
  Fs.lookup
    (disk (snd (run_command sample_host (Some "mv") ["ghost"; "sub"] sample_state)))
    "/home/u/sub/ghost" = Some (File "").
Proof.
  apply (missing_source_leaves_empty_target sample_host "mv" "ghost" "sub" []
           sample_state "/home/u/ghost" "/home/u/sub/ghost");
    try reflexivity; [right; reflexivity | vm_compute; discriminate | discriminate].
Defined.

Lemma rn_to_absolute_name_witness :
  Path.resolve (cwd sample_host) [Some (Path.dirname "/home/u/a.txt"); Some "/home/b.txt"]
  = Some "/home/b.txt" /\
  (canonical "/home/b.txt" = true -> "/home/b.txt" = "/home/b.txt") /\
  run_command sample_host (Some "rn") ["a.txt"; "/home/b.txt"] sample_state =
    (Prompted,
     echoed (with_disk (<["/home/b.txt" := File "hi"]>
                          (delete "/home/u/a.txt" (disk sample_state))) sample_state)).
Proof.
  apply (rn_to_absolute_name sample_host "a.txt" "/home/b.txt" [] sample_state
           "/home/u/a.txt" "hi" "/home/b.txt");
    try reflexivity. vm_compute. discriminate.
Defined.

Lemma compress_writes_at_resolved_dest_witness :
  run_command sample_host (Some "compress") ["a.txt"; "sub/out.br"] sample_state =
    (Prompted,
     echoed (with_disk
               (<["/home/u/sub/out.br" :=
                    File (brotliCompress sample_host
                            (if String.eqb "/home/u/a.txt" "/home/u/sub/out.br"
                             then "" else "hi"))]> (disk sample_state))
               sample_state)) /\
  run_command sample_host (Some "decompress") ["z.br"; "a.txt"] sample_state =
    (Prompted,
     echoed (with_disk (<["/home/u/a.txt" := File "data"]> (disk sample_state))
               sample_state)).
Proof.
  split.
  - apply (compress_writes_at_resolved_dest sample_host "a.txt" "sub/out.br" []
             sample_state "/home/u/a.txt" "/home/u/sub/out.br" "hi");
      try reflexivity. vm_compute. discriminate.
  - apply (proj2 (compress_writes_at_resolved_dest sample_host "z.br" "a.txt" []
                    sample_state "/home/u/z.br" "/home/u/a.txt" "br:data"
                    eq_refl eq_refl eq_refl eq_refl
                    ltac:(vm_compute; discriminate)) "data").
    reflexivity.
Defined.

(** * The rest of the line handler *)

(** ** What every command keeps *)

Section Preserved.

Variable host : Host.
Variable P : state -> state -> Prop.
Hypothesis P_refl : forall st, P st st.
Hypothesis P_trans : forall a b c, P a b -> P b c -> P a c.
Hypothesis P_emit : forall o, preserves P (emit o).
Hypothesis P_cursor : forall d, preserves P (set_currentDir d).

Lemma preserves_ret {A} (a : A) : preserves P (ret a).
Proof. intros st. apply P_refl. Qed.

Lemma preserves_throw {A} : preserves P (@throw A).
Proof. intros st. apply P_refl. Qed.

Lemma preserves_or_throw {A} (o : option A) : preserves P (or_throw o).
Proof. destruct o; [apply preserves_ret | apply preserves_throw]. Qed.

Lemma preserves_get_currentDir : preserves P get_currentDir.
Proof. intros st. apply P_refl. Qed.

Lemma preserves_get_disk : preserves P get_disk.
Proof. intros st. apply P_refl. Qed.

Lemma preserves_bind {A B} (m : M A) (k : A -> M B) :
  preserves P m -> (forall a, preserves P (k a)) -> preserves P (bind m k).
Proof.
  intros Hm Hk st. unfold bind. specialize (Hm st).
  destruct (m st) as [[a| | |code|a| ] st']; simpl in *; try assumption.
  - eapply P_trans; [exact Hm | apply Hk].
  - rewrite snd_doomed. eapply P_trans; [exact Hm | apply Hk].
Qed.

Lemma preserves_try_catch body handler :
  preserves P body -> preserves P handler -> preserves P (try_catch body handler).
Proof.
  intros Hb Hh st. unfold try_catch. specialize (Hb st).
  destruct (body st) as [[a| | |code|a| ] st']; simpl in *; try assumption.
  - eapply P_trans; [exact Hb | apply Hh].
  - rewrite snd_doomed. eapply P_trans; [exact Hb | apply Hh].
Qed.

Lemma preserves_cpu_lines l : forall index, preserves P (cpu_lines index l).
Proof.
  induction l as [|cpu l IH]; intros index; simpl.
  - apply preserves_ret.
  - apply preserves_bind; [apply P_emit | intros _; apply IH].
Qed.

(** Walks down a sequence of binds over the steps above. *)
Ltac kept :=
  repeat first
    [ apply preserves_bind; [|intros ?]
    | match goal with |- preserves P (if ?b then _ else _) => destruct b end
    | apply preserves_ret | apply preserves_throw | apply preserves_or_throw
    | apply preserves_get_currentDir | apply preserves_get_disk
    | apply preserves_cpu_lines | apply P_emit | apply P_cursor ].

Lemma preserves_printCurrentDir : preserves P printCurrentDir.
Proof. unfold printCurrentDir, console_log. kept. Qed.

Lemma preserves_goUp : preserves P goUp.
Proof. unfold goUp. kept. Qed.

Lemma preserves_changeDirectory dir : preserves P (changeDirectory host dir).
Proof. unfold changeDirectory, path_resolve, console_log. kept. Qed.

Lemma preserves_listDirectory : preserves P (listDirectory host).
Proof. unfold listDirectory. kept. Qed.

Lemma preserves_readFile p : preserves P (readFile host p).
Proof. unfold readFile, path_resolve. kept. Qed.

Lemma preserves_getOSInfo flag : preserves P (getOSInfo host flag).
Proof. unfold getOSInfo, console_log. kept. Qed.

Lemma preserves_calculateHash p : preserves P (calculateHash host p).
Proof. unfold calculateHash, path_resolve, console_log. kept. Qed.

Lemma preserves_exitProgram : preserves P (exitProgram host).
Proof.
  unfold exitProgram, console_log.
  apply preserves_bind; [apply P_emit | intros _ st; apply P_refl].
Qed.

Lemma flag_is_true (command : option string) (s : string) :
  flag_is command s = true -> command = Some s.
Proof.
  destruct command as [c|]; simpl; [|discriminate].
  intros H. apply String.eqb_eq in H. congruence.
Qed.

(** The branches of the [switch] that call no writing function. *)
Lemma preserves_dispatch_reading command params :
  (forall c, command = Some c -> ~ In c writing_commands) ->
  preserves P (dispatch host command params).
Proof.
  intros Hread. unfold dispatch.
  repeat match goal with
         | |- preserves P (if flag_is command ?s then _ else _) =>
             let E := fresh "E" in
             destruct (flag_is command s) eqn:E;
             [ apply flag_is_true in E;
               try (exfalso; apply (Hread _ E); simpl; tauto) | clear E ]
         end;
    first [ apply preserves_goUp | apply preserves_changeDirectory
          | apply preserves_listDirectory | apply preserves_readFile
          | apply preserves_getOSInfo | apply preserves_calculateHash
          | apply preserves_exitProgram | apply P_emit ].
Qed.

Section Writers.

Hypothesis P_disk : forall fs, preserves P (set_disk fs).
Hypothesis P_pipe : forall through sp dp, preserves P (pipe_streams host through sp dp).

Ltac kept_w :=
  repeat first
    [ apply preserves_bind; [|intros ?]
    | apply preserves_ret | apply preserves_throw | apply preserves_or_throw
    | apply preserves_get_currentDir | apply preserves_get_disk
    | apply P_disk | apply P_pipe ].

Lemma preserves_dispatch command params : preserves P (dispatch host command params).
Proof.
  unfold dispatch.
  repeat match goal with
         | |- preserves P (if ?b then _ else _) => destruct b
         end;
    first [ apply preserves_goUp | apply preserves_changeDirectory
          | apply preserves_listDirectory | apply preserves_readFile
          | apply preserves_getOSInfo | apply preserves_calculateHash
          | apply preserves_exitProgram | apply P_emit
          | unfold createFile, createDirectory, renameFile, copyFile, moveFile,
              removeFile, compressFile, decompressFile, copyFile, path_resolve,
              path_basename; kept_w ].
Qed.

End Writers.

(** From the [switch] to the whole handling of a command. *)
Lemma run_command_preserves command params st :
  preserves P (dispatch host command params) ->
  P st (snd (run_command host command params st)).
Proof.
  intros Hd. unfold run_command.
  set (m := try_catch (dispatch host command params)
              (console_log "Operation failed") ;;
            printCurrentDir ;; emit Prompt).
  assert (K : preserves P m).
  { apply preserves_bind.
    - apply preserves_try_catch; [exact Hd | apply P_emit].
    - intros _. apply preserves_bind; [apply preserves_printCurrentDir|].
      intros _. apply P_emit. }
  specialize (K st). destruct (m st) as [[a| | |code|a| ] st']; exact K.
Qed.

Lemma on_line_preserves line st :
  (forall tokens, Tokenizer.parseInput (JS.trim line) = Some tokens ->
     preserves P (dispatch host (head tokens) (tail tokens))) ->
  P st (snd (on_line host line st)).
Proof.
  intros Hd. unfold on_line.
  destruct (String.eqb (JS.trim line) "").
  - pose proof (P_emit Prompt st) as H. destruct (emit Prompt st). exact H.
  - destruct (Tokenizer.parseInput (JS.trim line)) as [tokens|]; [|apply P_refl].
    apply run_command_preserves, Hd. reflexivity.
Qed.

End Preserved.

Section Frames.

Variable host : Host.

(** The file system is written only by [add], [mkdir], [rn], [cp],
    [mv], [rm], [compress] and [decompress]: the handling of any other
    line ([up], [cd], [ls], [cat], [os], [hash], [.exit], an unknown
    word, no word at all) leaves every file and directory as it was. *)
Theorem other_lines_keep_disk (line : string) (st : state) :
  (forall c, command_of line = Some c -> ~ In c writing_commands) ->
  disk (snd (on_line host line st)) = disk st.
Proof.
  intros Hread.
  assert (Hrefl : forall a, same_disk a a) by reflexivity.
  assert (Htrans : forall a b c, same_disk a b -> same_disk b c -> same_disk a c)
    by (unfold same_disk; congruence).
  assert (Hemit : forall o, preserves same_disk (emit o)) by (intros o a; reflexivity).
  assert (Hcursor : forall d, preserves same_disk (set_currentDir d))
    by (intros d a; reflexivity).
  apply (on_line_preserves host same_disk Hrefl Htrans Hemit).
  intros tokens Hparse.
  apply (preserves_dispatch_reading host same_disk Hrefl Htrans Hemit Hcursor).
  intros c Hc. apply Hread. unfold command_of. rewrite Hparse. exact Hc.
Qed.

Lemma console_grows_refl st : console_grows st st.
Proof. exists []. rewrite app_nil_r. reflexivity. Qed.

Lemma console_grows_trans a b c :
  console_grows a b -> console_grows b c -> console_grows a c.
Proof.
  intros [m1 H1] [m2 H2]. exists (m1 ++ m2). rewrite H2, H1, app_assoc. reflexivity.
Qed.

Lemma console_grows_emit o : preserves console_grows (emit o).
Proof. intros st. exists [o]. reflexivity. Qed.

Lemma console_grows_pipe through sp dp :
  preserves console_grows (pipe_streams host through sp dp).
Proof.
  intros st. exists []. rewrite app_nil_r. unfold pipe_streams.
  destruct (Fs.lookup _ sp); [destruct (Fs.read _ sp) as [bytes|]|];
    [destruct (through bytes)|..];
    destruct (Fs.open_w (disk st) dp);
    try destruct (write_opens_first host st sp dp); reflexivity.
Qed.

Lemma console_grows_set_currentDir d : preserves console_grows (set_currentDir d).
Proof. intros st. exists []. rewrite app_nil_r. reflexivity. Qed.

Lemma console_grows_set_disk fs : preserves console_grows (set_disk fs).
Proof. intros st. exists []. rewrite app_nil_r. reflexivity. Qed.

Lemma console_grows_dispatch command params :
  preserves console_grows (dispatch host command params).
Proof.
  apply (preserves_dispatch host console_grows console_grows_refl console_grows_trans
           console_grows_emit console_grows_set_currentDir console_grows_set_disk
           console_grows_pipe).
Qed.

(** What is on the console stays there: the handling of a line only
    adds to it.  And when the handling of a line with a command reaches
    the prompt, the last things printed are the echo of the cursor, as
    the command left it, and the prompt. *)
Theorem console_ends_with_cursor_echo (line : string) (st : state) :
  console_grows st (snd (on_line host line st)) /\
  (JS.trim line <> "" ->
   fst (on_line host line st) = Prompted ->
   exists more,
     console (snd (on_line host line st)) =
       console st ++ more ++
       [Log ("You are currently in " +:+ currentDir (snd (on_line host line st)));
        Prompt]).
Proof.
  split.
  - apply (on_line_preserves host console_grows console_grows_refl
             console_grows_trans console_grows_emit).
    intros tokens _. apply console_grows_dispatch.
  - intros Hne. unfold on_line.
    destruct (String.eqb_spec (JS.trim line) ""); [contradiction|].
    destruct (Tokenizer.parseInput (JS.trim line)) as [tokens|]; [|discriminate].
    rewrite run_command_cases.
    destruct (console_grows_dispatch (head tokens) (tail tokens) st) as [more Hmore].
    destruct (dispatch host (head tokens) (tail tokens) st) as [[a| | |code|a| ] st'];
      simpl in *; try discriminate; intros _.
    + exists more. rewrite Hmore, <- !app_assoc. reflexivity.
    + exists (more ++ [Log "Operation failed"]).
      rewrite Hmore, <- !app_assoc. reflexivity.
Qed.

End Frames.

Lemma other_lines_keep_disk_witness :
  disk (snd (on_line sample_host "cat a.txt" sample_state)) = disk sample_state.
Proof.
  apply other_lines_keep_disk. intros c Hc. vm_compute in Hc.
  injection Hc as <-. simpl. intros H.
  repeat destruct H as [H|H]; try discriminate H. exact H.
Defined.

Lemma console_ends_with_cursor_echo_witness :
  exists more,
    console (snd (on_line sample_host "cd sub" sample_state)) =
      console sample_state ++ more ++
      [Log ("You are currently in " +:+
            currentDir (snd (on_line sample_host "cd sub" sample_state)));
       Prompt].
Proof.
  apply (proj2 (console_ends_with_cursor_echo sample_host "cd sub" sample_state));
    [discriminate | reflexivity].
Defined.

(** ** Words the [switch] does not know, arguments that are not there *)

Section Dispatch.

Variable host : Host.

(** A first word that is none of the fifteen commands: [Invalid input]
    is printed, then the echo and the prompt; the cursor and the file
    system are as they were. *)
Theorem unknown_command_prints_invalid_input command params st :
  (forall c, command = Some c -> ~ In c known_commands) ->
  run_command host command params st =
    (Prompted, echoed (printed (Log "Invalid input") st)).
Proof.
  intros Hunknown. rewrite run_command_cases. unfold dispatch.
  repeat match goal with
         | |- context [flag_is command ?s] =>
             rewrite (flag_is_false command s)
               by (intros E; apply (Hunknown _ E); simpl; tauto)
         end.
  reflexivity.
Qed.

Lemma take_segment_no_slash l :
  Forall (fun c => Ascii.eqb c Path.slash = false) (Path.take_segment l).
Proof.
  induction l as [|c l IH]; simpl; [constructor|].
  destruct (Ascii.eqb c Path.slash) eqn:E; constructor; assumption.
Qed.

(** [path.basename] never returns an absolute path. *)
Lemma basename_not_absolute (p : string) : Path.is_absolute (Path.basename p) = false.
Proof.
  unfold Path.basename.
  pose proof (take_segment_no_slash (Path.drop_slashes (rev (JS.chars p)))) as H.
  apply Forall_rev in H.
  destruct (rev (Path.take_segment (Path.drop_slashes (rev (JS.chars p)))))
    as [|c l]; [reflexivity|].
  inversion H; subst. assumption.
Qed.

Lemma resolve_missing_middle cwd (d base : string) :
  Path.is_absolute base = false ->
  Path.resolve cwd [Some d; None; Some base] = None.
Proof.
  intros Hbase. unfold Path.resolve. simpl rev. simpl Path.resolve_loop.
  rewrite Hbase. destruct (String.eqb base ""); reflexivity.
Qed.

(** A command that takes a path and is given none, or takes two and is
    given one: [path.resolve] throws on [undefined], the [catch]
    prints [Operation failed], and nothing else happens: no stream is
    opened, the file system and the cursor are as they were. *)
Theorem missing_argument_fails (command : string) params st :
  (In command path_commands /\ params = []) \/
  (In command two_path_commands /\ exists a, params = [a]) ->
  run_command host (Some command) params st = (Prompted, failed st).
Proof.
  intros [[Hin ->] | [Hin [a ->]]].
  - simpl in Hin.
    repeat destruct Hin as [<-|Hin]; try reflexivity. contradiction.
  - rewrite run_command_cases.
    destruct (resolve_defined [currentDir st; a] (cwd host)) as [p Hp].
    simpl in Hp. simpl in Hin.
    repeat destruct Hin as [<-|Hin]; try contradiction.
    + change (dispatch host (Some "rn") [a]) with (renameFile host (Some a) None).
      unfold renameFile, bind, get_currentDir, path_resolve. rewrite Hp. reflexivity.
    + change (dispatch host (Some "cp") [a]) with (copyFile host (Some a) None).
      unfold copyFile, bind, get_currentDir, path_resolve, path_basename.
      rewrite Hp. simpl.
      rewrite resolve_missing_middle by apply basename_not_absolute. reflexivity.
    + change (dispatch host (Some "mv") [a]) with (moveFile host (Some a) None).
      unfold moveFile, copyFile, bind, get_currentDir, path_resolve, path_basename.
      rewrite Hp. simpl.
      rewrite resolve_missing_middle by apply basename_not_absolute. reflexivity.
    + change (dispatch host (Some "compress") [a])
        with (compressFile host (Some a) None).
      unfold compressFile, bind, get_currentDir, path_resolve. rewrite Hp. reflexivity.
    + change (dispatch host (Some "decompress") [a])
        with (decompressFile host (Some a) None).
      unfold decompressFile, bind, get_currentDir, path_resolve. rewrite Hp.
      reflexivity.
Qed.

Lemma drop_spaces_all l : forallb JS.is_space l = true -> JS.drop_spaces l = [].
Proof.
  induction l as [|c l IH]; simpl; [reflexivity|].
  intros H. apply andb_prop in H as [Hc Hl]. rewrite Hc. apply IH, Hl.
Qed.

(** A line of white space only, the empty line included, is not a
    command: the prompt is shown again and that is all (no echo of the
    cursor, no message). *)
Theorem blank_line_only_prompts (line : string) (st : state) :
  forallb JS.is_space (JS.chars line) = true ->
  on_line host line st = (Prompted, printed Prompt st).
Proof.
  intros Hblank. unfold on_line, JS.trim.
  rewrite (drop_spaces_all _ Hblank). reflexivity.
Qed.

End Dispatch.

Lemma unknown_command_prints_invalid_input_witness :
  run_command sample_host (Some "dir") ["sub"] sample_state =
    (Prompted, echoed (printed (Log "Invalid input") sample_state)).
Proof.
  apply unknown_command_prints_invalid_input.
  intros c Hc. injection Hc as <-. simpl. intros H.
  repeat destruct H as [H|H]; try discriminate H. exact H.
Defined.

Lemma missing_argument_fails_witness :
  run_command sample_host (Some "cp") ["a.txt"] sample_state =
    (Prompted, failed sample_state) /\
  run_command sample_host (Some "rm") [] sample_state =
    (Prompted, failed sample_state).
Proof.
  split; apply missing_argument_fails.
  - right. split; [simpl; tauto | exists "a.txt"; reflexivity].
  - left. split; [simpl; tauto | reflexivity].
Defined.

Lemma blank_line_only_prompts_witness :
  on_line sample_host "   " sample_state = (Prompted, printed Prompt sample_state).
Proof. apply blank_line_only_prompts. reflexivity. Defined.

(** ** How the handling of a command can end *)

Section Outcomes.

Variable host : Host.

Lemma ends_ret f e {A} (a : A) : ends_within f e (ret a).
Proof. intros st. exact I. Qed.

Lemma ends_throw f e {A} : ends_within f e (@throw A).
Proof. intros st. exact I. Qed.

Lemma ends_or_throw f e {A} (o : option A) : ends_within f e (or_throw o).
Proof. destruct o; [apply ends_ret | apply ends_throw]. Qed.

Lemma ends_bind f e {A B} (m : M A) (k : A -> M B) :
  ends_within f e m -> (forall a, ends_within f e (k a)) ->
  ends_within f e (bind m k).
Proof.
  intros Hm Hk st. unfold bind. specialize (Hm st).
  destruct (m st) as [[a| | |code|a| ] st']; simpl in *; try assumption.
  - apply Hk.
  - specialize (Hk a st').
    destruct (k a st') as [[b| | |code|b| ] st'']; simpl in *; assumption.
Qed.

Lemma ends_get_currentDir f e : ends_within f e get_currentDir.
Proof. intros st. exact I. Qed.

Lemma ends_get_disk f e : ends_within f e get_disk.
Proof. intros st. exact I. Qed.

Lemma ends_set_currentDir f e d : ends_within f e (set_currentDir d).
Proof. intros st. exact I. Qed.

Lemma ends_set_disk f e fs : ends_within f e (set_disk fs).
Proof. intros st. exact I. Qed.

Lemma ends_emit f e o : ends_within f e (emit o).
Proof. intros st. exact I. Qed.

Lemma ends_cpu_lines f e l : forall index, ends_within f e (cpu_lines index l).
Proof.
  induction l as [|cpu l IH]; intros index; simpl.
  - apply ends_ret.
  - apply ends_bind; [apply ends_emit | intros _; apply IH].
Qed.

(** A pipe returns, rejects, or ends the process; it does not exit. *)
Lemma ends_pipe_streams e through sp dp :
  ends_within true e (pipe_streams host through sp dp).
Proof.
  intros st. unfold pipe_streams.
  destruct (Fs.lookup _ sp); [destruct (Fs.read _ sp) as [bytes|]|];
    [destruct (through bytes)|..];
    destruct (Fs.open_w (disk st) dp);
    try destruct (write_opens_first host st sp dp); simpl; auto.
Qed.

Lemma ends_exitProgram f : ends_within f true (exitProgram host).
Proof. intros st. split; reflexivity. Qed.

Ltac ends :=
  repeat first
    [ apply ends_bind; [|intros ?]
    | match goal with |- ends_within _ _ (if ?b then _ else _) => destruct b end
    | apply ends_ret | apply ends_throw | apply ends_or_throw
    | apply ends_get_currentDir | apply ends_get_disk
    | apply ends_set_currentDir | apply ends_set_disk
    | apply ends_cpu_lines | apply ends_emit | apply ends_pipe_streams ].

(** The functions that open no stream to pipe return or throw. *)
Lemma ends_plain_functions :
  ends_within false false goUp /\
  (forall p, ends_within false false (changeDirectory host p)) /\
  ends_within false false (listDirectory host) /\
  (forall p, ends_within false false (readFile host p)) /\
  (forall p, ends_within false false (createFile host p)) /\
  (forall p, ends_within false false (createDirectory host p)) /\
  (forall p q, ends_within false false (renameFile host p q)) /\
  (forall p, ends_within false false (removeFile host p)) /\
  (forall p, ends_within false false (getOSInfo host p)) /\
  (forall p, ends_within false false (calculateHash host p)).
Proof.
  repeat split; intros;
    unfold goUp, changeDirectory, listDirectory, readFile, createFile,
      createDirectory, renameFile, removeFile, getOSInfo, calculateHash,
      path_resolve, console_log; ends.
Qed.

Lemma ends_streaming_functions :
  (forall p q, ends_within true false (copyFile host p q)) /\
  (forall p q, ends_within true false (moveFile host p q)) /\
  (forall p q, ends_within true false (compressFile host p q)) /\
  (forall p q, ends_within true false (decompressFile host p q)).
Proof.
  repeat split; intros;
    unfold moveFile, copyFile, compressFile, decompressFile, path_resolve,
      path_basename; ends.
Qed.

(** How each branch of the [switch] can end, and where it leaves the
    state when it exits. *)
Lemma dispatch_ends command params st :
  match dispatch host command params st with
  | (Ok _, _) | (Throw, _) => True
  | (Fatal, _) | (Doomed _, _) | (ThrowDoomed, _) =>
      exists c, command = Some c /\ In c streaming_commands
  | (Exit code, st') =>
      code = 0%Z /\ command = Some ".exit" /\ st' = printed (Log (farewell host)) st
  end.
Proof.
  destruct ends_plain_functions
    as (Hup & Hcd & Hls & Hcat & Hadd & Hmkdir & Hrn & Hrm & Hos & Hhash).
  destruct ends_streaming_functions as (Hcp & Hmv & Hcompress & Hdecompress).
  assert (Hplain : forall m : M unit, ends_within false false m ->
            match m st with
            | (Ok _, _) | (Throw, _) => True
            | (Fatal, _) | (Doomed _, _) | (ThrowDoomed, _) =>
                exists c, command = Some c /\ In c streaming_commands
            | (Exit code, st') =>
                code = 0%Z /\ command = Some ".exit" /\
                st' = printed (Log (farewell host)) st
            end).
  { intros m Hm. specialize (Hm st).
    destruct (m st) as [[a| | |code|a| ] st']; simpl in Hm; try exact I;
      try discriminate Hm. destruct Hm; discriminate. }
  assert (Hstream : forall (m : M unit) c, ends_within true false m ->
            command = Some c -> In c streaming_commands ->
            match m st with
            | (Ok _, _) | (Throw, _) => True
            | (Fatal, _) | (Doomed _, _) | (ThrowDoomed, _) =>
                exists c, command = Some c /\ In c streaming_commands
            | (Exit code, st') =>
                code = 0%Z /\ command = Some ".exit" /\
                st' = printed (Log (farewell host)) st
            end).
  { intros m c Hm Hc Hin. specialize (Hm st).
    destruct (m st) as [[a| | |code|a| ] st']; simpl in Hm; try exact I;
      eauto. destruct Hm; discriminate. }
  unfold dispatch.
  repeat match goal with
         | |- context [if flag_is command ?s then _ else _] =>
             let E := fresh "E" in
             destruct (flag_is command s) eqn:E;
             [ apply flag_is_true in E | clear E ]
         end;
    try (apply Hplain; first [ exact Hup | apply Hcd | exact Hls | apply Hcat
                             | apply Hadd | apply Hmkdir | apply Hrn | apply Hrm
                             | apply Hos | apply Hhash | apply ends_emit ]).
  - eapply Hstream; [apply Hcp | eassumption | simpl; tauto].
  - eapply Hstream; [apply Hmv | eassumption | simpl; tauto].
  - eapply Hstream; [apply Hcompress | eassumption | simpl; tauto].
  - eapply Hstream; [apply Hdecompress | eassumption | simpl; tauto].
  - repeat split. assumption.
Qed.

(** No failure of a command leaves the line handler as an exception:
    the handling of a command ends at the prompt, or by an exit with
    status 0, which only [.exit] does, or by the end of the process on
    an uncaught stream error, which only [cp], [mv], [compress] and
    [decompress] can cause. *)
Theorem command_outcomes command params st :
  match fst (run_command host command params st) with
  | Prompted => True
  | Exited code => code = 0%Z /\ command = Some ".exit"
  | Crashed => exists c, command = Some c /\ In c streaming_commands
  | Rejected => False
  end.
Proof.
  rewrite run_command_cases. pose proof (dispatch_ends command params st) as H.
  destruct (dispatch host command params st) as [[a| | |code|a| ] st']; simpl;
    try exact I; try exact H. destruct H as (? & ? & _); split; assumption.
Qed.

(** An exit is by status 0, after the farewell line, which is the last
    thing printed. *)
Lemma on_line_exit line st code st' :
  on_line host line st = (Exited code, st') ->
  code = 0%Z /\ st' = printed (Log (farewell host)) st.
Proof.
  unfold on_line. destruct (String.eqb (JS.trim line) ""); [discriminate|].
  destruct (Tokenizer.parseInput (JS.trim line)) as [tokens|]; [|discriminate].
  rewrite run_command_cases.
  pose proof (dispatch_ends (head tokens) (tail tokens) st) as H.
  destruct (dispatch host (head tokens) (tail tokens) st) as [[a| | |c|a| ] st''];
    try discriminate.
  intros E. inversion E; subst. destruct H as (-> & _ & ->). split; reflexivity.
Qed.

(** A session always ends: on the exit of [.exit] or of the end of the
    input, with status 0 and the farewell as the last line printed, or
    on an unhandled rejection or an uncaught error; it is never left
    waiting at a prompt once the input is over. *)
Theorem session_ends (lines : list string) (st : state) :
  match fst (session host lines st) with
  | Prompted => False
  | Exited code =>
      code = 0%Z /\
      exists before,
        console (snd (session host lines st)) = before ++ [Log (farewell host)]
  | Rejected | Crashed => True
  end.
Proof.
  revert st. induction lines as [|line lines IH]; intros st; simpl.
  - split; [reflexivity|]. exists (console st). reflexivity.
  - destruct (on_line host line st) as [[ |code| | ] st'] eqn:E; simpl; try exact I.
    + apply IH.
    + apply on_line_exit in E as [-> ->]. split; [reflexivity|].
      exists (console st). reflexivity.
Qed.

(** [.exit]: the farewell, then the exit with status 0; the lines that
    follow are not handled. *)
Theorem exit_command_stops_session (line : string) (rest : list string) (st : state) :
  command_of line = Some ".exit" ->
  session host (line :: rest) st = (Exited 0%Z, printed (Log (farewell host)) st).
Proof.
  unfold command_of. intros Hcmd.
  assert (H : on_line host line st = (Exited 0%Z, printed (Log (farewell host)) st)).
  { unfold on_line.
    destruct (String.eqb_spec (JS.trim line) "") as [E|_].
    - rewrite E in Hcmd. discriminate Hcmd.
    - destruct (Tokenizer.parseInput (JS.trim line)) as [tokens|]; [|discriminate].
      rewrite Hcmd. reflexivity. }
  simpl. rewrite H. reflexivity.
Qed.

End Outcomes.

Lemma exit_command_stops_session_witness :
  session sample_host ["  .exit now"; "rm a.txt"] sample_state =
    (Exited 0%Z, printed (Log (farewell sample_host)) sample_state).
Proof. apply exit_command_stops_session. reflexivity. Defined.

(** ** Files and directories: delete, create, move *)

Section FileCommands.

Variable host : Host.

(** [rm]: a regular file at the resolved path is deleted, and nothing
    else is touched; on a directory and on a path that holds nothing
    the command fails and the file system stays as it was. *)
Theorem rm_deletes_file_or_fails p rest st fp :
  Path.resolve (cwd host) [Some (currentDir st); Some p] = Some fp ->
  run_command host (Some "rm") (p :: rest) st =
    match Fs.lookup (disk st) fp with
    | Some (File _) => (Prompted, echoed (with_disk (delete fp (disk st)) st))
    | _ => (Prompted, failed st)
    end.
Proof.
  intros Hfp. rewrite run_command_cases.
  change (dispatch host (Some "rm") (p :: rest)) with (removeFile host (Some p)).
  unfold removeFile, bind, get_currentDir, path_resolve, get_disk.
  rewrite Hfp. simpl. unfold Fs.unlinkSync.
  destruct (Fs.lookup (disk st) fp) as [[c|]|]; reflexivity.
Qed.

(** [mkdir]: the directory is created when nothing is at the resolved
    path and the directory that is to hold it exists; otherwise (a file
    or a directory is there already, or the parent is missing) the
    command fails and the file system stays as it was. *)
Theorem mkdir_creates_or_fails name rest st fp :
  Path.resolve (cwd host) [Some (currentDir st); Some name] = Some fp ->
  run_command host (Some "mkdir") (name :: rest) st =
    if negb (Fs.existsSync (disk st) fp) && Fs.is_dir (disk st) (Fs.parent fp)
    then (Prompted, echoed (with_disk (<[fp := Dir]> (disk st)) st))
    else (Prompted, failed st).
Proof.
  intros Hfp. rewrite run_command_cases.
  change (dispatch host (Some "mkdir") (name :: rest))
    with (createDirectory host (Some name)).
  unfold createDirectory, bind, get_currentDir, path_resolve, get_disk.
  rewrite Hfp. simpl. unfold Fs.mkdirSync, Fs.existsSync.
  destruct (Fs.lookup (disk st) fp) as [n|]; [reflexivity|]. simpl.
  destruct (Fs.is_dir (disk st) (Fs.parent fp)); reflexivity.
Qed.

(** [mkdir name] then [cd name]: the cursor is in the new directory. *)
Theorem mkdir_then_cd_enters name st fp :
  Path.resolve (cwd host) [Some (currentDir st); Some name] = Some fp ->
  Fs.lookup (disk st) fp = None ->
  Fs.is_dir (disk st) (Fs.parent fp) = true ->
  exists st1,
    run_command host (Some "mkdir") [name] st = (Prompted, st1) /\
    run_command host (Some "cd") [name] st1 = (Prompted, echoed (with_cursor fp st1)).
Proof.
  intros Hfp Hfree Hpar. eexists. split.
  - rewrite run_command_cases.
    change (dispatch host (Some "mkdir") [name])
      with (createDirectory host (Some name)).
    unfold createDirectory, bind, get_currentDir, path_resolve, get_disk.
    rewrite Hfp. simpl. unfold Fs.mkdirSync. rewrite Hfree, Hpar. reflexivity.
  - rewrite run_command_cases.
    change (dispatch host (Some "cd") [name]) with (changeDirectory host (Some name)).
    unfold changeDirectory, bind, get_currentDir, path_resolve, get_disk.
    simpl. rewrite Hfp. simpl. rewrite exists_and_is_dir.
    unfold Fs.is_dir. rewrite lookup_insert_same; [reflexivity|].
    intros ->. discriminate Hfree.
Qed.

(** [add name] on a free path, then [rm name]: both succeed.  [add]
    prints no failure and leaves an empty file there, and nothing else
    changed; [rm] then prints no failure either and leaves the file
    system as it was before the two, with the cursor where it was. *)
Theorem add_then_rm_restores name st fp :
  Path.resolve (cwd host) [Some (currentDir st); Some name] = Some fp ->
  Fs.lookup (disk st) fp = None ->
  Fs.is_dir (disk st) (Fs.parent fp) = true ->
  exists st1,
    st1 = echoed (with_disk (<[fp := File ""]> (disk st)) st) /\
    run_command host (Some "add") [name] st = (Prompted, st1) /\
    run_command host (Some "rm") [name] st1 = (Prompted, echoed (with_disk (disk st) st1)).
Proof.
  intros Hfp Hfree Hpar.
  assert (Hroot : fp <> "/") by (intros ->; discriminate Hfree).
  assert (Hmap : disk st !! fp = None).
  { unfold Fs.lookup in Hfree. destruct (String.eqb_spec fp "/"); congruence. }
  eexists. split; [reflexivity|]. split.
  - rewrite run_command_cases.
    change (dispatch host (Some "add") [name]) with (createFile host (Some name)).
    unfold createFile, bind, get_currentDir, path_resolve, get_disk.
    rewrite Hfp. simpl. unfold Fs.writeFileSync, Fs.open_w.
    rewrite Hfree, Hpar. simpl. rewrite insert_insert_eq. reflexivity.
  - rewrite run_command_cases.
    change (dispatch host (Some "rm") [name]) with (removeFile host (Some name)).
    unfold removeFile, bind, get_currentDir, path_resolve, get_disk.
    simpl. rewrite Hfp. simpl. unfold Fs.unlinkSync.
    rewrite lookup_insert_same by assumption. simpl.
    rewrite (delete_insert_id _ _ _ Hmap). reflexivity.
Qed.

(** [mv] between a regular file and another place where a file can be:
    the bytes of the source are at the target, the source is gone, and
    nothing else has changed. *)
Theorem mv_moves_file src destDir rest st sp dp c :
  Path.resolve (cwd host) [Some (currentDir st); Some src] = Some sp ->
  Path.resolve (cwd host)
    [Some (currentDir st); Some destDir; Some (Path.basename src)] = Some dp ->
  Fs.lookup (disk st) sp = Some (File c) ->
  Fs.is_dir (disk st) (Fs.parent dp) = true ->
  Fs.lookup (disk st) dp <> Some Dir ->
  sp <> dp ->
  run_command host (Some "mv") (src :: destDir :: rest) st =
    (Prompted, echoed (with_disk (delete sp (<[dp := File c]> (disk st))) st)).
Proof.
  intros Hsp Hdp Hsrc Hpar Hnd Hne. rewrite run_command_cases.
  change (dispatch host (Some "mv") (src :: destDir :: rest))
    with (moveFile host (Some src) (Some destDir)).
  unfold moveFile, bind at 1.
  rewrite (copyFile_pipes host _ _ _ _ _ Hsp Hdp).
  rewrite (pipe_streams_ok host Some sp dp st c c); try assumption;
    [|destruct (String.eqb_spec sp dp); [contradiction | reflexivity]].
  unfold bind, get_currentDir, path_resolve, get_disk. simpl.
  rewrite Hsp. simpl. unfold Fs.unlinkSync.
  rewrite lookup_insert_other by assumption. rewrite Hsrc. reflexivity.
Qed.

(** A pipe from a file to itself: the open of the write stream empties
    it, and nothing is left to read. *)
Lemma pipe_streams_same_file through p st c c' :
  Fs.lookup (disk st) p = Some (File c) ->
  through "" = Some c' ->
  pipe_streams host through p p st = (Ok tt, with_disk (<[p := File c']> (disk st)) st).
Proof.
  intros Hfile Hthrough.
  rewrite (pipe_streams_of_file host _ _ _ _ _ Hfile). unfold Fs.open_w.
  rewrite Hfile, String.eqb_refl, Hthrough. reflexivity.
Qed.

(** The target that is the source itself (as for [cp a.txt .] in the
    directory of [a.txt]): no failure is reported; [cp] leaves the file
    empty and [mv] leaves no file at all.  The bytes are lost. *)
Theorem same_file_target_loses_bytes src destDir rest st sp c :
  Path.resolve (cwd host) [Some (currentDir st); Some src] = Some sp ->
  Path.resolve (cwd host)
    [Some (currentDir st); Some destDir; Some (Path.basename src)] = Some sp ->
  Fs.lookup (disk st) sp = Some (File c) ->
  run_command host (Some "cp") (src :: destDir :: rest) st =
    (Prompted, echoed (with_disk (<[sp := File ""]> (disk st)) st)) /\
  run_command host (Some "mv") (src :: destDir :: rest) st =
    (Prompted, echoed (with_disk (delete sp (disk st)) st)).
Proof.
  intros Hsp Hdp Hsrc.
  assert (Hroot : sp <> "/") by (intros ->; discriminate Hsrc).
  split; rewrite run_command_cases.
  - change (dispatch host (Some "cp") (src :: destDir :: rest))
      with (copyFile host (Some src) (Some destDir)).
    rewrite (copyFile_pipes host _ _ _ _ _ Hsp Hdp).
    rewrite (pipe_streams_same_file Some sp st c ""); [reflexivity|assumption|reflexivity].
  - change (dispatch host (Some "mv") (src :: destDir :: rest))
      with (moveFile host (Some src) (Some destDir)).
    unfold moveFile, bind at 1.
    rewrite (copyFile_pipes host _ _ _ _ _ Hsp Hdp).
    rewrite (pipe_streams_same_file Some sp st c ""); [|assumption|reflexivity].
    unfold bind, get_currentDir, path_resolve, get_disk. simpl.
    rewrite Hsp. simpl. unfold Fs.unlinkSync.
    rewrite lookup_insert_same by assumption. simpl.
    rewrite delete_insert_eq. reflexivity.
Qed.

(** [cp] and [mv] of a regular file to a target that cannot be opened
    for writing (its directory is missing, or it is a directory): the
    write stream rejects, [Operation failed] is printed, and nothing
    has changed; [mv] has not deleted the source. *)
Theorem unwritable_target_fails (command : string) src destDir rest st sp dp c :
  command = "cp" \/ command = "mv" ->
  Path.resolve (cwd host) [Some (currentDir st); Some src] = Some sp ->
  Path.resolve (cwd host)
    [Some (currentDir st); Some destDir; Some (Path.basename src)] = Some dp ->
  Fs.lookup (disk st) sp = Some (File c) ->
  Fs.open_w (disk st) dp = None ->
  run_command host (Some command) (src :: destDir :: rest) st = (Prompted, failed st).
Proof.
  intros Hcmd Hsp Hdp Hsrc Hopen.
  assert (Hpipe : pipe_streams host Some sp dp st = (Throw, st)).
  { rewrite (pipe_streams_of_file host _ _ _ _ _ Hsrc), Hopen. reflexivity. }
  rewrite run_command_cases. destruct Hcmd as [-> | ->].
  - change (dispatch host (Some "cp") (src :: destDir :: rest))
      with (copyFile host (Some src) (Some destDir)).
    rewrite (copyFile_pipes host _ _ _ _ _ Hsp Hdp), Hpipe. reflexivity.
  - change (dispatch host (Some "mv") (src :: destDir :: rest))
      with (moveFile host (Some src) (Some destDir)).
    unfold moveFile, bind at 1.
    rewrite (copyFile_pipes host _ _ _ _ _ Hsp Hdp), Hpipe. reflexivity.
Qed.

(** [cat] and [hash]: the bytes of a regular file are written out, or
    their digest is printed; on a directory and on a path that holds
    nothing the read stream fails, which these two listen to: the
    command fails, the process goes on, nothing has changed. *)
Theorem cat_and_hash_read_or_fail p rest st fp :
  Path.resolve (cwd host) [Some (currentDir st); Some p] = Some fp ->
  run_command host (Some "cat") (p :: rest) st =
    match Fs.read (disk st) fp with
    | Some bytes =>
        (Prompted, echoed (if String.eqb bytes "" then st else printed (Stdout bytes) st))
    | None => (Prompted, failed st)
    end /\
  run_command host (Some "hash") (p :: rest) st =
    match Fs.read (disk st) fp with
    | Some bytes => (Prompted, echoed (printed (Log (sha256_hex host bytes)) st))
    | None => (Prompted, failed st)
    end.
Proof.
  intros Hfp. split; rewrite run_command_cases.
  - change (dispatch host (Some "cat") (p :: rest)) with (readFile host (Some p)).
    unfold readFile, bind, get_currentDir, path_resolve, get_disk.
    rewrite Hfp. simpl. destruct (Fs.read (disk st) fp) as [bytes|]; [|reflexivity].
    simpl. destruct (String.eqb bytes ""); reflexivity.
  - change (dispatch host (Some "hash") (p :: rest))
      with (calculateHash host (Some p)).
    unfold calculateHash, bind, get_currentDir, path_resolve, get_disk.
    rewrite Hfp. simpl. destruct (Fs.read (disk st) fp) as [bytes|]; reflexivity.
Qed.

(** [compress src mid] then [decompress mid out], for a codec whose
    decompression undoes its compression on the bytes of [src]: both
    succeed and [out] holds the bytes of [src]. *)
Theorem compress_then_decompress_restores src mid out st ps pm po bytes :
  Path.resolve (cwd host) [Some (currentDir st); Some src] = Some ps ->
  Path.resolve (cwd host) [Some (currentDir st); Some mid] = Some pm ->
  Path.resolve (cwd host) [Some (currentDir st); Some out] = Some po ->
  Fs.lookup (disk st) ps = Some (File bytes) ->
  Fs.is_dir (disk st) (Fs.parent pm) = true ->
  Fs.lookup (disk st) pm <> Some Dir ->
  ps <> pm ->
  Fs.is_dir (disk st) (Fs.parent po) = true ->
  Fs.lookup (disk st) po <> Some Dir ->
  po <> pm ->
  brotliDecompress host (brotliCompress host bytes) = Some bytes ->
  exists st1 st2,
    run_command host (Some "compress") [src; mid] st = (Prompted, st1) /\
    run_command host (Some "decompress") [mid; out] st1 = (Prompted, st2) /\
    disk st2 = <[po := File bytes]> (<[pm := File (brotliCompress host bytes)]> (disk st)).
Proof.
  intros Hps Hpm Hpo Hsrc Hparm Hndm Hne Hparo Hndo Hneo Hcodec.
  assert (Hrootm : pm <> "/") by (eapply not_root_of_not_dir; eassumption).
  eexists. eexists. split; [|split].
  - rewrite run_command_cases.
    change (dispatch host (Some "compress") [src; mid])
      with (compressFile host (Some src) (Some mid)).
    unfold compressFile, bind, get_currentDir, path_resolve.
    rewrite Hps. simpl. rewrite Hpm. simpl.
    erewrite pipe_streams_ok; eauto.
  - rewrite run_command_cases.
    change (dispatch host (Some "decompress") [mid; out])
      with (decompressFile host (Some mid) (Some out)).
    unfold decompressFile, bind, get_currentDir, path_resolve.
    simpl. rewrite Hpm. simpl. rewrite Hpo. simpl.
    erewrite (pipe_streams_ok host (brotliDecompress host) pm po _
                (brotliCompress host (if String.eqb ps pm then "" else bytes)) bytes);
      [reflexivity | | | |].
    + simpl. apply lookup_insert_same. assumption.
    + simpl. apply is_dir_insert_file; assumption.
    + simpl. rewrite lookup_insert_other by assumption. assumption.
    + destruct (String.eqb_spec pm po); [congruence|].
      destruct (String.eqb_spec ps pm); [contradiction|]. exact Hcodec.
  - simpl. destruct (String.eqb_spec ps pm); [contradiction|]. reflexivity.
Qed.

End FileCommands.

(** ** Listing and host facts *)

Section Listing.

Variable host : Host.

Lemma insert_sorted_perm {A} (cmp : A -> A -> comparison) x l :
  Permutation (insert_sorted cmp x l) (x :: l).
Proof.
  induction l as [|y l IH]; simpl; [reflexivity|].
  destruct (cmp x y); try reflexivity;
    (etransitivity; [apply perm_skip, IH | apply perm_swap]).
Qed.

Lemma fold_insert_perm {A} (cmp : A -> A -> comparison) l : forall acc,
  Permutation (fold_left (fun acc x => insert_sorted cmp x acc) l acc) (l ++ acc).
Proof.
  induction l as [|x l IH]; intros acc; simpl; [reflexivity|].
  rewrite IH. rewrite insert_sorted_perm. symmetry. apply Permutation_middle.
Qed.

(** The sort keeps every element, as many times as it was there. *)
Lemma sort_by_perm {A} (cmp : A -> A -> comparison) l :
  Permutation (sort_by cmp l) l.
Proof. unfold sort_by. rewrite fold_insert_perm, app_nil_r. reflexivity. Qed.

Lemma insert_sorted_ordered {A} (cmp : A -> A -> comparison) x l :
  (forall a b, cmp a b = CompOpp (cmp b a)) ->
  ordered cmp l -> ordered cmp (insert_sorted cmp x l).
Proof.
  intros Hanti. induction l as [|y l IH]; intros Hl; simpl; [exact I|].
  destruct (cmp x y) eqn:Hxy.
  - assert (Hyx : cmp y x <> Gt) by (rewrite Hanti, Hxy; discriminate).
    destruct l as [|z l]; simpl in *; [split; [exact Hyx | exact I]|].
    destruct Hl as [Hyz Hl]. specialize (IH Hl).
    destruct (cmp x z); (split; [assumption | exact IH]).
  - split; [rewrite Hxy; discriminate | exact Hl].
  - assert (Hyx : cmp y x <> Gt) by (rewrite Hanti, Hxy; discriminate).
    destruct l as [|z l]; simpl in *; [split; [exact Hyx | exact I]|].
    destruct Hl as [Hyz Hl]. specialize (IH Hl).
    destruct (cmp x z); (split; [assumption | exact IH]).
Qed.

(** For a comparison that reverses with its arguments, the sort leaves
    no element above its successor. *)
Lemma sort_by_ordered {A} (cmp : A -> A -> comparison) l :
  (forall a b, cmp a b = CompOpp (cmp b a)) -> ordered cmp (sort_by cmp l).
Proof.
  intros Hanti. unfold sort_by.
  assert (H : forall acc, ordered cmp acc ->
            ordered cmp (fold_left (fun acc x => insert_sorted cmp x acc) l acc)).
  { induction l as [|x l IH]; intros acc Hacc; simpl; [exact Hacc|].
    apply IH, insert_sorted_ordered; assumption. }
  apply H. exact I.
Qed.

(** Every entry is a directory or a file: the two filters of
    [listDirectory] share them out. *)
Lemma rows_of_entries items :
  Permutation
    (map (fun dir : string * node => (fst dir, "directory")) (filter isDirectory items) ++
     map (fun file : string * node => (fst file, "file")) (filter isFile items))
    (map row_of items).
Proof.
  induction items as [|[name n] items IH]; [reflexivity|].
  destruct n as [c|]; cbn.
  - etransitivity; [symmetry; apply Permutation_middle|].
    apply perm_skip, IH.
  - apply perm_skip, IH.
Qed.

(** [ls]: when the cursor is a directory, one table is printed; it has
    one row for each entry of the directory, with its name and its
    kind, and, for a collation order that reverses with its arguments,
    no row is above the next one by name.  When the cursor is not a
    directory (any more), the command fails. *)
Theorem ls_lists_entries_in_order params st :
  match Fs.readdirSync (disk st) (currentDir st) with
  | Some items =>
      exists rows,
        run_command host (Some "ls") params st =
          (Prompted, echoed (printed (Table rows) st)) /\
        Permutation rows (map row_of items) /\
        ((forall a b, localeCompare host a b = CompOpp (localeCompare host b a)) ->
         ordered (fun a b => localeCompare host (fst a) (fst b)) rows)
  | None => run_command host (Some "ls") params st = (Prompted, failed st)
  end.
Proof.
  rewrite run_command_cases.
  change (dispatch host (Some "ls") params) with (listDirectory host).
  unfold listDirectory, bind, get_currentDir, get_disk.
  destruct (Fs.readdirSync (disk st) (currentDir st)) as [items|]; [|reflexivity].
  eexists. split; [reflexivity|]. split.
  - rewrite sort_by_perm. apply rows_of_entries.
  - intros Hanti. apply sort_by_ordered. intros a b. apply Hanti.
Qed.

Lemma cpu_lines_run l : forall index st,
  exists lines,
    cpu_lines index l st =
      (Ok tt, {| currentDir := currentDir st; disk := disk st;
                 console := console st ++ lines |}) /\
    length lines = length l /\
    forall i cpu, l !! i = Some cpu ->
      lines !! i = Some (CpuLine (index + i + 1) (fst cpu) (snd cpu)).
Proof.
  induction l as [|cpu l IH]; intros index st; simpl.
  - exists []. rewrite app_nil_r. destruct st. repeat split. intros i c H.
    discriminate H.
  - unfold bind, emit. simpl.
    destruct (IH (S index)
                {| currentDir := currentDir st; disk := disk st;
                   console := console st ++ [CpuLine (index + 1) (fst cpu) (snd cpu)] |})
      as (lines & Hrun & Hlen & Hnth).
    exists (CpuLine (index + 1) (fst cpu) (snd cpu) :: lines).
    rewrite Hrun. simpl. rewrite <- app_assoc. simpl.
    split; [reflexivity|]. split; [f_equal; exact Hlen|].
    intros [|i] c H; simpl in *.
    + inversion H; subst. rewrite Nat.add_0_r. reflexivity.
    + rewrite (Hnth i c H). do 2 f_equal. lia.
Qed.

(** [os]: a flag that is none of the five, or no flag, prints
    [Invalid input]; [--cpus] prints the total, then one line for each
    processor, in the order of the host, numbered from 1. *)
Theorem os_reports rest st :
  (forall flag, ~ In flag os_flags ->
     run_command host (Some "os") (flag :: rest) st =
       (Prompted, echoed (printed (Log "Invalid input") st))) /\
  run_command host (Some "os") [] st =
    (Prompted, echoed (printed (Log "Invalid input") st)) /\
  exists lines,
    run_command host (Some "os") ("--cpus" :: rest) st =
      (Prompted,
       echoed {| currentDir := currentDir st; disk := disk st;
                 console := console st ++
                   Log ("Total CPUs: " +:+ decimal (length (cpus host))) :: lines |}) /\
    length lines = length (cpus host) /\
    forall i cpu, cpus host !! i = Some cpu ->
      lines !! i = Some (CpuLine (i + 1) (fst cpu) (snd cpu)).
Proof.
  split; [|split].
  - intros flag Hflag. rewrite run_command_cases.
    change (dispatch host (Some "os") (flag :: rest)) with (getOSInfo host (Some flag)).
    unfold getOSInfo.
    repeat match goal with
           | |- context [flag_is (Some flag) ?s] =>
               rewrite (flag_is_false (Some flag) s)
                 by (intros E; injection E as ->; apply Hflag; simpl; tauto)
           end.
    reflexivity.
  - reflexivity.
  - rewrite run_command_cases.
    change (dispatch host (Some "os") ("--cpus" :: rest))
      with (getOSInfo host (Some "--cpus")).
    change (getOSInfo host (Some "--cpus"))
      with (console_log ("Total CPUs: " +:+ decimal (length (cpus host))) ;;
            cpu_lines 0 (cpus host)).
    unfold bind, console_log, emit. simpl.
    destruct (cpu_lines_run (cpus host) 0
                {| currentDir := currentDir st; disk := disk st;
                   console := console st ++
                     [Log ("Total CPUs: " +:+ decimal (length (cpus host)))] |})
      as (lines & Hrun & Hlen & Hnth).
    exists lines. rewrite Hrun. simpl. rewrite <- app_assoc. simpl.
    split; [reflexivity|]. split; [exact Hlen|]. exact Hnth.
Qed.

End Listing.

(** ** Reading back what was typed *)

Section ReadBack.

Lemma plain_word w rest :
  forallb is_plain w = true -> ends_argument rest ->
  Tokenizer.plain (w ++ rest) = (w, rest).
Proof.
  intros Hw Hrest. induction w as [|c w IH]; simpl in *.
  - destruct Hrest as [->|[r ->]]; reflexivity.
  - apply andb_prop in Hw as [Hc Hw]. unfold is_plain in Hc.
    destruct (JS.is_space c || JS.is_quote c); [discriminate|].
    rewrite (IH Hw). reflexivity.
Qed.

Lemma unquoted_body b rest :
  forallb (fun c => negb (JS.is_quote c)) b = true ->
  Tokenizer.unquoted (b ++ JS.quote :: rest) = (b, JS.quote :: rest).
Proof.
  intros Hb. induction b as [|c b IH]; simpl in *; [reflexivity|].
  apply andb_prop in Hb as [Hc Hb]. destruct (JS.is_quote c); [discriminate|].
  rewrite (IH Hb). reflexivity.
Qed.

Lemma group_ends rest : ends_argument rest -> Tokenizer.group rest = None.
Proof. intros [->|[r ->]]; reflexivity. Qed.

(** One turn of the group takes a well-formed argument whole. *)
Lemma group_argument a rest :
  arg_ok a = true -> ends_argument rest ->
  Tokenizer.group (typed a ++ rest) = Some (typed a, rest).
Proof.
  intros Hok Hrest. unfold typed. destruct a as [w|b]; simpl in *.
  - apply andb_prop in Hok as [Hne Hw]. unfold Tokenizer.group.
    rewrite (plain_word _ _ Hw Hrest).
    destruct (JS.chars w) as [|c l] eqn:E; [|reflexivity].
    destruct w; [discriminate Hne | discriminate E].
  - unfold lone_quote. rewrite chars_app, chars_app.
    change (JS.chars (String JS.quote "")) with [JS.quote].
    simpl. unfold Tokenizer.group. simpl.
    rewrite <- app_assoc. simpl. rewrite (unquoted_body _ _ Hok). reflexivity.
Qed.

(** And the match stops after it. *)
Lemma group_plus_argument fuel a rest :
  arg_ok a = true -> ends_argument rest ->
  Tokenizer.group_plus (S fuel) (typed a ++ rest) = Some (typed a, rest).
Proof.
  intros Hok Hrest. simpl. rewrite (group_argument a rest Hok Hrest).
  destruct fuel as [|fuel]; simpl; [reflexivity|].
  rewrite (group_ends rest Hrest). reflexivity.
Qed.

Lemma typed_nonempty a : arg_ok a = true -> 0 < length (typed a).
Proof.
  unfold typed. destruct a as [w|b]; simpl; intros Hok.
  - destruct w; [discriminate Hok | simpl; lia].
  - simpl. lia.
Qed.

Lemma chars_typed_line args :
  JS.chars (JS.join " " (map written args)) = typed_line args.
Proof.
  induction args as [|a args IH]; [reflexivity|].
  destruct args as [|a' args]; [reflexivity|].
  change (map written (a :: a' :: args))
    with (written a :: written a' :: map written args).
  rewrite join_cons, chars_app, chars_app.
  change (typed_line (a :: a' :: args))
    with (typed a ++ " "%char :: typed_line (a' :: args)).
  rewrite <- IH. reflexivity.
Qed.

Lemma match_all_nil fuel : Tokenizer.match_all fuel [] = [].
Proof. destruct fuel; reflexivity. Qed.

(** The successive matches on such a line are its arguments. *)
Lemma match_all_typed_line args : forall fuel,
  forallb arg_ok args = true ->
  length (typed_line args) < fuel ->
  Tokenizer.match_all fuel (typed_line args) = map typed args.
Proof.
  induction args as [|a args IH]; intros fuel Hok Hfuel.
  - apply match_all_nil.
  - simpl in Hok. apply andb_prop in Hok as [Ha Hargs].
    pose proof (typed_nonempty a Ha) as Hlen.
    destruct fuel as [|fuel]; [lia|].
    destruct args as [|a' args].
    + change (typed_line [a]) with (typed a) in *.
      cbn [Tokenizer.match_all].
      rewrite <- (app_nil_r (typed a)) at 2.
      rewrite (group_plus_argument _ a [] Ha) by (left; reflexivity).
      rewrite match_all_nil. reflexivity.
    + change (typed_line (a :: a' :: args))
        with (typed a ++ " "%char :: typed_line (a' :: args)) in *.
      cbn [Tokenizer.match_all].
      rewrite (group_plus_argument _ a _ Ha) by (right; eauto).
      rewrite length_app in Hfuel. cbn [length] in Hfuel.
      destruct fuel as [|fuel]; [lia|].
      cbn [Tokenizer.match_all].
      change (Tokenizer.group_plus (S (length (" "%char :: typed_line (a' :: args))))
                (" "%char :: typed_line (a' :: args))) with (@None (list ascii * list ascii)).
      cbn [map]. f_equal. apply IH; [exact Hargs | lia].
Qed.

Lemma chars_str l : JS.chars (JS.str l) = l.
Proof. apply list_ascii_of_string_of_list_ascii. Qed.

(** Stripping the quotes of what was typed gives what was meant. *)
Lemma strip_quotes_written a :
  arg_ok a = true -> Tokenizer.strip_quotes (written a) = meant a.
Proof.
  destruct a as [w|b]; simpl; intros Hok; unfold Tokenizer.strip_quotes.
  - apply andb_prop in Hok as [Hne Hw].
    assert (Hnq : forall c, In c (JS.chars w) -> JS.is_quote c = false).
    { intros c Hc. rewrite forallb_forall in Hw. specialize (Hw c Hc).
      unfold is_plain in Hw. destruct (JS.is_quote c); [|reflexivity].
      rewrite orb_true_r in Hw. discriminate. }
    destruct (JS.chars w) as [|c l] eqn:E.
    + destruct w; [discriminate Hne | discriminate E].
    + rewrite (Hnq c) by (left; reflexivity).
      destruct (rev (c :: l)) as [|x r] eqn:Hrev.
      * rewrite <- E. apply str_chars.
      * rewrite (Hnq x); [rewrite <- E; apply str_chars|].
        apply in_rev. rewrite Hrev. left. reflexivity.
  - unfold lone_quote. rewrite chars_app, chars_app.
    change (JS.chars (String JS.quote "")) with [JS.quote]. simpl.
    rewrite rev_app_distr. simpl. rewrite rev_involutive. apply str_chars.
Qed.

Lemma strip_quotes_typed args :
  forallb arg_ok args = true ->
  map Tokenizer.strip_quotes (map JS.str (map typed args)) = map meant args.
Proof.
  induction args as [|a args IH]; intros Hok; [reflexivity|].
  simpl in Hok. apply andb_prop in Hok as [Ha Hargs].
  cbn [map]. unfold typed at 1.
  rewrite str_chars, (strip_quotes_written a Ha), (IH Hargs). reflexivity.
Qed.

(** Arguments typed with one space between them, those with white
    space in them (or empty) put between double quotes, are read back
    as they were meant: the same number of them, in order, without the
    quotes. *)
Theorem parseInput_reads_back_arguments (args : list arg) :
  args <> [] -> forallb arg_ok args = true ->
  Tokenizer.parseInput (JS.join " " (map written args)) = Some (map meant args).
Proof.
  intros Hne Hok. unfold Tokenizer.parseInput, Tokenizer.match_regex.
  rewrite <- length_chars, chars_typed_line.
  rewrite (match_all_typed_line args _ Hok) by lia.
  destruct args as [|a args]; [contradiction|].
  cbn [map]. f_equal.
  apply (strip_quotes_typed (a :: args) Hok).
Qed.

End ReadBack.

(** ** The cursor is a path in normal form *)

Section CursorPaths.

Variable host : Host.

Lemma split_on_app sep l1 l2 :
  JS.split_on sep (l1 ++ sep :: l2) = JS.split_on sep l1 ++ JS.split_on sep l2.
Proof.
  induction l1 as [|c l1 IH]; simpl.
  - rewrite Ascii.eqb_refl. reflexivity.
  - destruct (Ascii.eqb c sep); [rewrite IH; reflexivity|].
    rewrite IH. destruct (JS.split_on sep l1) as [|seg segs] eqn:E; [|reflexivity].
    exfalso. eapply split_on_nonempty; eassumption.
Qed.

Lemma split_app (s t : string) :
  JS.split Path.slash (s +:+ "/" +:+ t) = JS.split Path.slash s ++ JS.split Path.slash t.
Proof.
  unfold JS.split. rewrite chars_app, chars_app.
  change (JS.chars "/") with [Path.slash]. simpl app.
  rewrite split_on_app, map_app. reflexivity.
Qed.

Lemma slash_free_not_in seg : slash_free seg = true -> ~ In Path.slash (JS.chars seg).
Proof.
  unfold slash_free. intros H Hin. rewrite forallb_forall in H.
  specialize (H _ Hin). rewrite Ascii.eqb_refl in H. discriminate.
Qed.

Lemma split_slash_free seg : slash_free seg = true -> JS.split Path.slash seg = [seg].
Proof.
  intros H. unfold JS.split.
  rewrite (split_on_no_sep _ _ (slash_free_not_in seg H)). simpl.
  rewrite str_chars. reflexivity.
Qed.

(** [segs.join('/').split('/')] is [segs], for segments without a
    separator. *)
Lemma split_join segs :
  segs <> [] -> forallb slash_free segs = true ->
  JS.split Path.slash (JS.join "/" segs) = segs.
Proof.
  induction segs as [|x segs IH]; intros Hne Hfree; [contradiction|].
  simpl in Hfree. apply andb_prop in Hfree as [Hx Hsegs].
  destruct segs as [|y segs]; [apply split_slash_free, Hx|].
  rewrite join_cons, split_app, (split_slash_free x Hx), IH;
    [reflexivity | discriminate | exact Hsegs].
Qed.

Lemma entry_names_plain segs :
  forallb entry_name segs = true -> forallb plain_segment segs = true.
Proof.
  induction segs as [|x segs IH]; simpl; [reflexivity|].
  unfold entry_name at 1. intros H. apply andb_prop in H as [Hx Hsegs].
  apply andb_prop in Hx as [Hp _]. rewrite Hp. apply IH, Hsegs.
Qed.

Lemma entry_names_slash_free segs :
  forallb entry_name segs = true -> forallb slash_free segs = true.
Proof.
  induction segs as [|x segs IH]; simpl; [reflexivity|].
  unfold entry_name at 1. intros H. apply andb_prop in H as [Hx Hsegs].
  apply andb_prop in Hx as [_ Hf]. rewrite Hf. apply IH, Hsegs.
Qed.

Lemma split_root_join segs :
  segs <> [] -> forallb slash_free segs = true ->
  JS.split Path.slash (root_join segs) = "" :: segs.
Proof.
  intros Hne Hfree. unfold root_join.
  change ("/" +:+ JS.join "/" segs) with ("" +:+ "/" +:+ JS.join "/" segs).
  rewrite split_app, (split_join segs Hne Hfree). reflexivity.
Qed.

(** The path through names of entries is in normal form. *)
Lemma canonical_root_join segs :
  forallb entry_name segs = true -> canonical (root_join segs) = true.
Proof.
  intros Hsegs. destruct segs as [|x segs]; [reflexivity|].
  unfold canonical.
  rewrite split_root_join by (discriminate || apply entry_names_slash_free, Hsegs).
  rewrite (entry_names_plain _ Hsegs), orb_true_r. reflexivity.
Qed.

Lemma split_on_segments sep l :
  Forall (fun seg => ~ In sep seg) (JS.split_on sep l).
Proof.
  induction l as [|c l IH]; simpl.
  - constructor; [intros []|constructor].
  - destruct (Ascii.eqb_spec c sep) as [->|Hne].
    + constructor; [intros []|exact IH].
    + destruct (JS.split_on sep l) as [|seg segs]; [constructor; [|constructor]|].
      * intros [H|[]]. congruence.
      * inversion IH; subst. constructor; [|assumption].
        intros [H|H]; [congruence | contradiction].
Qed.

Lemma split_segments_slash_free (p : string) :
  forallb slash_free (JS.split Path.slash p) = true.
Proof.
  unfold JS.split. pose proof (split_on_segments Path.slash (JS.chars p)) as H.
  induction H as [|seg segs Hseg _ IH]; simpl; [reflexivity|].
  rewrite IH, andb_true_r. unfold slash_free. rewrite chars_str.
  apply forallb_forall. intros c Hc.
  destruct (Ascii.eqb_spec c Path.slash) as [->|_]; [contradiction | reflexivity].
Qed.

Lemma forallb_and {A} (f g : A -> bool) l :
  forallb f l = true -> forallb g l = true -> forallb (fun x => f x && g x) l = true.
Proof.
  induction l as [|x l IH]; simpl; [reflexivity|].
  intros Hf Hg. apply andb_prop in Hf as [-> Hf]. apply andb_prop in Hg as [-> Hg].
  simpl. apply IH; assumption.
Qed.

(** A path in normal form goes down from the root through names of
    entries. *)
Lemma canonical_segments (p : string) :
  canonical p = true ->
  exists segs, p = root_join segs /\ forallb entry_name segs = true.
Proof.
  unfold canonical. intros H. apply andb_prop in H as [Habs H].
  destruct p as [|c p]; [discriminate|].
  simpl in Habs. apply Ascii.eqb_eq in Habs. subst c.
  pose proof (join_split (String Path.slash p)) as Hjoin.
  pose proof (split_segments_slash_free (String Path.slash p)) as Hfree.
  unfold JS.split in *.
  change (JS.chars (String Path.slash p)) with (Path.slash :: JS.chars p) in *.
  simpl JS.split_on in *.
  destruct (JS.split_on Path.slash (JS.chars p)) as [|seg segs] eqn:E;
    [exfalso; eapply split_on_nonempty; eassumption|].
  change (map JS.str ([] :: seg :: segs)) with ("" :: map JS.str (seg :: segs)) in *.
  apply orb_prop in H as [Hroot|Hplain].
  - apply String.eqb_eq in Hroot. exists []. split; [exact Hroot | reflexivity].
  - exists (map JS.str (seg :: segs)). split.
    + rewrite <- Hjoin. reflexivity.
    + simpl in Hfree. apply (forallb_and _ _ _ Hplain Hfree).
Qed.

Lemma norm_step_entry_names segs : forall res,
  forallb slash_free segs = true -> forallb entry_name res = true ->
  forallb entry_name (fold_left (Path.norm_step false) segs res) = true.
Proof.
  induction segs as [|seg segs IH]; intros res Hsegs Hres; simpl; [exact Hres|].
  simpl in Hsegs. apply andb_prop in Hsegs as [Hseg Hsegs].
  apply IH; [exact Hsegs|].
  unfold Path.norm_step.
  destruct (String.eqb seg "") eqn:E1; [exact Hres|].
  destruct (String.eqb seg ".") eqn:E2; [exact Hres|]. simpl.
  destruct (String.eqb seg "..") eqn:E3.
  - destruct res as [|last res]; [reflexivity|].
    simpl in Hres. apply andb_prop in Hres as [Hlast Hres'].
    destruct (String.eqb last ".."); [simpl; rewrite Hlast; exact Hres' | exact Hres'].
  - simpl. rewrite Hres, andb_true_r. unfold entry_name, plain_segment.
    rewrite E1, E2, E3, Hseg. reflexivity.
Qed.

(** What [normalizeString] returns under a root is a path in normal
    form. *)
Lemma canonical_normalized (path : string) :
  canonical ("/" +:+ Path.normalizeString path false) = true.
Proof.
  unfold Path.normalizeString.
  apply (canonical_root_join (rev _)).
  rewrite forallb_forall. intros x Hx. apply in_rev in Hx.
  pose proof (norm_step_entry_names (JS.split Path.slash path) []
                (split_segments_slash_free path) eq_refl) as H.
  rewrite forallb_forall in H. apply H, Hx.
Qed.

(** [path.resolve] from an absolute first argument returns a path in
    normal form, whatever the second argument is. *)
Lemma resolve_canonical_base cwd (d x p : string) :
  Path.is_absolute d = true ->
  Path.resolve cwd [Some d; Some x] = Some p -> canonical p = true.
Proof.
  intros Habs. unfold Path.resolve. simpl rev. simpl Path.resolve_loop.
  assert (Hd : String.eqb d "" = false) by (destruct d; [discriminate | reflexivity]).
  rewrite Hd, Habs.
  destruct (String.eqb x ""); [|destruct (Path.is_absolute x)];
    intros H; inversion H; subst; apply canonical_normalized.
Qed.

Lemma canonical_absolute p : canonical p = true -> Path.is_absolute p = true.
Proof. unfold canonical. intros H. apply andb_prop in H as [H _]. exact H. Qed.

Lemma append_assoc (s t u : string) : (s +:+ t) +:+ u = s +:+ (t +:+ u).
Proof.
  induction s as [|c s IH]; [reflexivity|].
  change (String c ((s +:+ t) +:+ u) = String c (s +:+ (t +:+ u))).
  f_equal. exact IH.
Qed.

Lemma join_snoc segs seg :
  segs <> [] -> JS.join "/" (segs ++ [seg]) = JS.join "/" segs +:+ "/" +:+ seg.
Proof.
  induction segs as [|x segs IH]; intros Hne; [contradiction|].
  destruct segs as [|y segs]; [reflexivity|].
  change ((x :: y :: segs) ++ [seg]) with (x :: (y :: segs) ++ [seg]).
  change ((y :: segs) ++ [seg]) with (y :: segs ++ [seg]) at 1.
  rewrite join_cons. change (y :: segs ++ [seg]) with ((y :: segs) ++ [seg]).
  rewrite IH by discriminate. rewrite join_cons.
  rewrite !append_assoc. reflexivity.
Qed.

Lemma entry_name_chars seg :
  entry_name seg = true ->
  JS.chars seg <> [] /\ forall c, In c (JS.chars seg) -> Ascii.eqb c Path.slash = false.
Proof.
  unfold entry_name, plain_segment, slash_free. intros H.
  apply andb_prop in H as [Hp Hf]. split.
  - destruct seg; [discriminate Hp | discriminate].
  - intros c Hc. rewrite forallb_forall in Hf. specialize (Hf c Hc).
    destruct (Ascii.eqb c Path.slash); [discriminate | reflexivity].
Qed.

Lemma dirname_scan_segment l rest :
  (forall c, In c l -> Ascii.eqb c Path.slash = false) ->
  Path.dirname_scan (l ++ rest) false = Path.dirname_scan rest false.
Proof.
  induction l as [|c l IH]; intros Hl; [reflexivity|]. simpl.
  rewrite (Hl c) by (left; reflexivity). apply IH.
  intros c' Hc'. apply Hl. right. exact Hc'.
Qed.

Lemma root_join_child segs seg :
  forallb entry_name segs = true ->
  child (root_join segs) seg = root_join (segs ++ [seg]).
Proof.
  intros Hsegs. unfold child, root_join.
  destruct segs as [|x segs]; [reflexivity|].
  rewrite join_snoc by discriminate.
  assert (Hne : String.eqb ("/" +:+ JS.join "/" (x :: segs)) "/" = false).
  { simpl in Hsegs. apply andb_prop in Hsegs as [Hx _].
    apply entry_name_chars in Hx as [Hx _].
    destruct x as [|c x]; [contradiction|].
    destruct segs; reflexivity. }
  rewrite Hne. reflexivity.
Qed.

(** [path.dirname] of an entry of a directory is the directory. *)
Lemma dirname_root_join segs seg :
  forallb entry_name segs = true -> entry_name seg = true ->
  Path.dirname (root_join (segs ++ [seg])) = root_join segs.
Proof.
  intros Hsegs Hseg. apply entry_name_chars in Hseg as [Hne Hfree].
  assert (Hrev : forall c, In c (rev (JS.chars seg)) -> Ascii.eqb c Path.slash = false)
    by (intros c Hc; apply Hfree, in_rev, Hc).
  unfold root_join, Path.dirname. simpl.
  destruct (rev (JS.chars seg)) as [|c0 l0] eqn:Erev.
  { exfalso. apply Hne. rewrite <- (rev_involutive (JS.chars seg)), Erev. reflexivity. }
  destruct segs as [|x segs].
  - change (JS.chars ("" +:+ JS.join "/" ([] ++ [seg]))) with (JS.chars seg).
    rewrite Erev. simpl. rewrite (Hrev c0) by (left; reflexivity).
    rewrite <- (app_nil_r l0), dirname_scan_segment
      by (intros c Hc; apply Hrev; right; exact Hc).
    reflexivity.
  - change ("" +:+ JS.join "/" ((x :: segs) ++ [seg]))
      with (JS.join "/" ((x :: segs) ++ [seg])).
    rewrite join_snoc by discriminate.
    assert (HJ : length (JS.chars (JS.join "/" (x :: segs))) <> 0).
    { simpl in Hsegs. apply andb_prop in Hsegs as [Hx _].
      apply entry_name_chars in Hx as [Hx _].
      destruct x as [|c x]; [contradiction|]. destruct segs; simpl; discriminate. }
    set (J := JS.join "/" (x :: segs)) in *. clearbody J.
    rewrite chars_app, chars_app. change (JS.chars "/") with [Path.slash].
    rewrite !rev_app_distr.
    change (rev [Path.slash]) with [Path.slash]. rewrite Erev.
    rewrite <- app_assoc. simpl. rewrite (Hrev c0) by (left; reflexivity).
    rewrite dirname_scan_segment by (intros c Hc; apply Hrev; right; exact Hc).
    simpl. rewrite rev_involutive, str_chars, length_rev.
    destruct (length (JS.chars J)); [contradiction|]. reflexivity.
Qed.

Lemma dirname_child dir seg :
  canonical dir = true -> entry_name seg = true ->
  Path.dirname (child dir seg) = dir.
Proof.
  intros Hdir Hseg. destruct (canonical_segments dir Hdir) as (segs & -> & Hsegs).
  rewrite root_join_child by assumption. apply dirname_root_join; assumption.
Qed.

Lemma forallb_snoc {A} (f : A -> bool) l x :
  forallb f l = true -> f x = true -> forallb f (l ++ [x]) = true.
Proof. intros Hl Hx. rewrite forallb_app, Hl. simpl. rewrite Hx. reflexivity. Qed.

Lemma canonical_child dir seg :
  canonical dir = true -> entry_name seg = true -> canonical (child dir seg) = true.
Proof.
  intros Hdir Hseg. destruct (canonical_segments dir Hdir) as (segs & -> & Hsegs).
  rewrite root_join_child by assumption.
  apply canonical_root_join, forallb_snoc; assumption.
Qed.

(** [path.dirname] of a path in normal form is one. *)
Lemma dirname_canonical p : canonical p = true -> canonical (Path.dirname p) = true.
Proof.
  intros Hp. destruct (canonical_segments p Hp) as (segs & -> & Hsegs).
  induction segs as [|seg init _] using rev_ind; [reflexivity|].
  rewrite forallb_app in Hsegs. apply andb_prop in Hsegs as [Hinit Hseg].
  simpl in Hseg. rewrite andb_true_r in Hseg.
  rewrite dirname_root_join by assumption. apply canonical_root_join, Hinit.
Qed.

(** [path.resolve] of the name of an entry against a directory in
    normal form is that entry of the directory. *)
Lemma resolve_child cwd dir seg :
  canonical dir = true -> entry_name seg = true ->
  Path.resolve cwd [Some dir; Some seg] = Some (child dir seg).
Proof.
  intros Hdir Hseg. pose proof (canonical_absolute dir Hdir) as Habs.
  destruct (canonical_segments dir Hdir) as (segs & -> & Hsegs).
  rewrite root_join_child by assumption.
  pose proof Hseg as Hseg'. unfold entry_name in Hseg'.
  apply andb_prop in Hseg' as [Hplain Hfree].
  assert (Hne : String.eqb seg "" = false).
  { unfold plain_segment in Hplain. destruct (String.eqb seg ""); [discriminate|reflexivity]. }
  assert (Hrel : Path.is_absolute seg = false).
  { destruct (entry_name_chars seg Hseg) as [_ Hc].
    destruct seg as [|c seg]; [reflexivity|]. apply Hc. left. reflexivity. }
  assert (Hd : String.eqb (root_join segs) "" = false) by reflexivity.
  unfold Path.resolve. simpl rev. simpl Path.resolve_loop.
  rewrite Hne, Hrel. cbv beta iota. change (negb true) with false.
  f_equal. unfold root_join at 2. f_equal.
  unfold Path.normalizeString.
  rewrite split_app, fold_left_app.
  assert (Hbase : fold_left (Path.norm_step false) (JS.split Path.slash (root_join segs)) []
                  = rev segs).
  { destruct segs as [|x segs]; [reflexivity|].
    rewrite split_root_join by (discriminate || apply entry_names_slash_free, Hsegs).
    change (fold_left (Path.norm_step false) ("" :: x :: segs) [])
      with (fold_left (Path.norm_step false) (x :: segs) []).
    rewrite norm_plain_segments by (apply entry_names_plain, Hsegs).
    apply app_nil_r. }
  rewrite Hbase.
  change (seg +:+ "/" +:+ "") with (seg +:+ "/" +:+ "").
  rewrite split_app, (split_slash_free seg Hfree).
  change (JS.split Path.slash "") with [""]. simpl fold_left.
  assert (Hstep : Path.norm_step false (rev segs) seg = seg :: rev segs).
  { unfold Path.norm_step, plain_segment in *.
    destruct (String.eqb seg ""), (String.eqb seg "."), (String.eqb seg "..");
      try discriminate. reflexivity. }
  rewrite Hstep. unfold Path.norm_step at 1. simpl.
  rewrite rev_involutive. reflexivity.
Qed.

(** What [up] does, whatever the cursor is. *)
Lemma up_command params st :
  run_command host (Some "up") params st =
    (Prompted, echoed (with_cursor (Path.dirname (currentDir st)) st)).
Proof.
  rewrite run_command_cases.
  change (dispatch host (Some "up") params) with goUp.
  unfold goUp, bind, get_currentDir.
  destruct (String.eqb_spec (Path.dirname (currentDir st)) (currentDir st)) as [E|_].
  - simpl. unfold with_cursor. rewrite E. destruct st; reflexivity.
  - reflexivity.
Qed.

(** [up] never fails and prints nothing but the echo: from an entry of
    a directory the cursor goes to that directory, and at the root it
    stays at the root. *)
Theorem up_goes_to_parent params st dir :
  canonical dir = true ->
  (currentDir st = "/" ->
   run_command host (Some "up") params st = (Prompted, echoed st)) /\
  (forall seg, entry_name seg = true -> currentDir st = child dir seg ->
     run_command host (Some "up") params st = (Prompted, echoed (with_cursor dir st))).
Proof.
  intros Hdir. split.
  - intros Hroot. rewrite up_command, Hroot.
    change (Path.dirname "/") with "/". rewrite <- Hroot. destruct st; reflexivity.
  - intros seg Hseg Hcur. rewrite up_command, Hcur, dirname_child by assumption.
    reflexivity.
Qed.

(** The cursor stays a path in normal form, line after line. *)
Lemma on_line_cursor_canonical line st :
  canonical (currentDir st) = true ->
  canonical (currentDir (snd (on_line host line st))) = true.
Proof.
  intros Hcan. unfold on_line.
  destruct (String.eqb (JS.trim line) ""); [exact Hcan|].
  destruct (Tokenizer.parseInput (JS.trim line)) as [tokens|]; [|exact Hcan].
  destruct (flag_is (head tokens) "up") eqn:Eup.
  { apply flag_is_true in Eup. rewrite Eup.
    rewrite up_command. apply dirname_canonical, Hcan. }
  destruct (flag_is (head tokens) "cd") eqn:Ecd.
  { apply flag_is_true in Ecd. rewrite Ecd, run_command_cases.
    change (dispatch host (Some "cd") (tail tokens))
      with (changeDirectory host (tail tokens !! 0)).
    unfold changeDirectory, bind, get_currentDir, path_resolve, get_disk.
    destruct (tail tokens !! 0) as [dir|]; [|exact Hcan].
    destruct (resolve_defined [currentDir st; dir] (cwd host)) as [newPath Hres].
    simpl in Hres. rewrite Hres. simpl.
    destruct (Fs.existsSync (disk st) newPath && Fs.is_dir (disk st) newPath);
      [|exact Hcan].
    simpl. eapply resolve_canonical_base; [|exact Hres].
    apply canonical_absolute, Hcan. }
  rewrite run_command_keeps_cursor; [exact Hcan | |];
    intros E; rewrite E in *; discriminate.
Qed.

(** From a home directory that is an absolute path in normal form, the
    cursor is an absolute path in normal form throughout the session,
    whatever is typed. *)
Theorem session_cursor_canonical (lines : list string) (fs : gmap string node) :
  canonical (homedir host) = true ->
  canonical (currentDir (snd (session host lines (startup host fs)))) = true /\
  Path.is_absolute (currentDir (snd (session host lines (startup host fs)))) = true.
Proof.
  intros Hhome.
  assert (H : forall st, canonical (currentDir st) = true ->
            canonical (currentDir (snd (session host lines st))) = true).
  { induction lines as [|line lines IH]; intros st Hcan; [exact Hcan|].
    simpl. pose proof (on_line_cursor_canonical line st Hcan) as Hstep.
    destruct (on_line host line st) as [[ |code| | ] st']; simpl in *;
      try exact Hstep. apply IH, Hstep. }
  split; [|apply canonical_absolute]; apply H; exact Hhome.
Qed.

Lemma cd_enters_child d params st :
  canonical (currentDir st) = true -> entry_name d = true ->
  Fs.is_dir (disk st) (child (currentDir st) d) = true ->
  run_command host (Some "cd") (d :: params) st =
    (Prompted, echoed (with_cursor (child (currentDir st) d) st)).
Proof.
  intros Hcan Hd Hdir. rewrite run_command_cases.
  change (dispatch host (Some "cd") (d :: params)) with (changeDirectory host (Some d)).
  unfold changeDirectory, bind, get_currentDir, path_resolve, get_disk.
  rewrite (resolve_child (cwd host) _ _ Hcan Hd). simpl.
  rewrite exists_and_is_dir, Hdir. reflexivity.
Qed.

Lemma run_commands_cons c commands st :
  run_commands host (c :: commands) st =
  run_commands host commands (snd (run_command host (Some (fst c)) (snd c) st)).
Proof. reflexivity. Qed.

Lemma run_commands_snoc commands c st :
  run_commands host (commands ++ [c]) st =
  snd (run_command host (Some (fst c)) (snd c) (run_commands host commands st)).
Proof. unfold run_commands. rewrite fold_left_app. reflexivity. Qed.

(** [cd] down through directories that are there, one name at a time,
    then [up] as many times: the cursor is back where it was, and the
    file system has not changed. *)
Theorem cd_down_then_up_returns (names : list string) (st : state) :
  canonical (currentDir st) = true ->
  directories_down (disk st) (currentDir st) names ->
  currentDir (run_commands host
                (map (fun d => ("cd", [d])) names ++ repeat ("up", []) (length names)) st)
  = currentDir st /\
  disk (run_commands host
          (map (fun d => ("cd", [d])) names ++ repeat ("up", []) (length names)) st)
  = disk st.
Proof.
  revert st. induction names as [|d names IH]; intros st Hcan Hdown.
  - split; reflexivity.
  - destruct Hdown as (Hd & Hdir & Hdown).
    change (length (d :: names)) with (S (length names)).
    change (repeat ("up", @nil string) (S (length names)))
      with (("up", @nil string) :: repeat ("up", []) (length names)).
    rewrite repeat_cons, app_assoc. cbn [map]. rewrite <- app_comm_cons.
    rewrite run_commands_snoc, run_commands_cons. cbn [fst snd].
    rewrite (cd_enters_child d [] st Hcan Hd Hdir). cbn [snd].
    assert (Hcan1 : canonical
                      (currentDir (echoed (with_cursor (child (currentDir st) d) st)))
                    = true)
      by (apply canonical_child; assumption).
    destruct (IH _ Hcan1 Hdown) as [Hcur Hdisk].
    remember (run_commands host
                (map (fun d0 => ("cd", [d0])) names ++ repeat ("up", []) (length names))
                (echoed (with_cursor (child (currentDir st) d) st))) as st2.
    rewrite up_command. simpl.
    rewrite Hcur, Hdisk. split; [|reflexivity].
    apply dirname_child; assumption.
Qed.

(** [rn old newName] with the name of an entry as new name: a regular
    file at the old path is renamed inside the directory that holds
    it, whatever the cursor is. *)
Theorem rn_stays_in_directory old newName rest st oldp c :
  canonical (currentDir st) = true ->
  Path.resolve (cwd host) [Some (currentDir st); Some old] = Some oldp ->
  entry_name newName = true ->
  Fs.lookup (disk st) oldp = Some (File c) ->
  Fs.is_dir (disk st) (Path.dirname oldp) = true ->
  Fs.lookup (disk st) (child (Path.dirname oldp) newName) <> Some Dir ->
  run_command host (Some "rn") (old :: newName :: rest) st =
    (Prompted,
     echoed (with_disk
               (<[child (Path.dirname oldp) newName := File c]> (delete oldp (disk st)))
               st)) /\
  Path.dirname (child (Path.dirname oldp) newName) = Path.dirname oldp.
Proof.
  intros Hcan Hold Hname Hfile Hpar Hnd.
  assert (Holdc : canonical oldp = true).
  { eapply resolve_canonical_base; [|exact Hold]. apply canonical_absolute, Hcan. }
  pose proof (dirname_canonical oldp Holdc) as Hdirc.
  pose proof (dirname_child _ _ Hdirc Hname) as Hsame.
  split; [|exact Hsame].
  set (target := child (Path.dirname oldp) newName) in *.
  rewrite run_command_cases.
  change (dispatch host (Some "rn") (old :: newName :: rest))
    with (renameFile host (Some old) (Some newName)).
  unfold renameFile, bind, get_currentDir, path_resolve, get_disk.
  rewrite Hold. simpl.
  rewrite (resolve_child (cwd host) _ _ Hdirc Hname). simpl. fold target.
  assert (Hroot : oldp <> "/") by (intros ->; discriminate Hfile).
  assert (Hmap : disk st !! oldp = Some (File c)).
  { unfold Fs.lookup in Hfile. destruct (String.eqb_spec oldp "/"); congruence. }
  unfold Fs.renameSync. rewrite Hfile.
  destruct (String.eqb_spec oldp "/") as [|_]; [contradiction|].
  destruct (String.eqb_spec oldp target) as [<-|Hne].
  - simpl. rewrite insert_delete_eq, (insert_id _ _ _ Hmap). reflexivity.
  - destruct (Fs.lookup (disk st) target) as [[c'|]|]; [reflexivity|congruence|].
    unfold Fs.parent. rewrite Hsame, Hpar. reflexivity.
Qed.

End CursorPaths.

(** ** A source that cannot be read, bytes that the codec refuses *)

Section UnreadableSource.

Variable host : Host.

(** [cp], [mv], [compress] and [decompress] from a path that holds no
    regular file (a missing source that is itself the target apart):
    the read stream emits ['error'], to which these four do not listen,
    and the process ends.  When the target is opened, the handler is
    still waiting then: the target is left empty, and there is no
    [Operation failed], no echo, no prompt.  When the target cannot be
    opened and the source is a directory, the error of the write stream
    is there first: [Operation failed], the echo and the prompt are
    printed, nothing has changed, and the process ends after that.
    When the target cannot be opened and nothing is at the source, one
    or the other happens, as the host has the two opens fail. *)
Theorem unreadable_source_ends_process (command : string) a b rest st sp dp :
  In command streaming_commands ->
  Path.resolve (cwd host) [Some (currentDir st); Some a] = Some sp ->
  Path.resolve (cwd host) (target_args command (currentDir st) a b) = Some dp ->
  Fs.read (disk st) sp = None ->
  (Fs.lookup (disk st) sp = None -> sp <> dp) ->
  fst (run_command host (Some command) (a :: b :: rest) st) = Crashed /\
  (forall fs', Fs.open_w (disk st) dp = Some fs' ->
     run_command host (Some command) (a :: b :: rest) st = (Crashed, with_disk fs' st)) /\
  (Fs.open_w (disk st) dp = None -> Fs.is_dir (disk st) sp = true ->
     run_command host (Some command) (a :: b :: rest) st = (Crashed, failed st)) /\
  (Fs.open_w (disk st) dp = None -> Fs.lookup (disk st) sp = None ->
     run_command host (Some command) (a :: b :: rest) st =
       (Crashed, if write_opens_first host st sp dp then failed st else st)).
Proof.
  intros Hin Hsp Hdp Hread Hne.
  rewrite (unreadable_source_command host command a b rest st sp dp Hin Hsp Hdp Hread Hne).
  split; [reflexivity|]. split; [|split].
  - intros fs' ->. reflexivity.
  - intros -> ->. reflexivity.
  - intros -> Hsrc. unfold Fs.is_dir. rewrite Hsrc. reflexivity.
Qed.


End UnreadableSource.

(** ** Closed instances of the properties above *)

Lemma rm_deletes_file_or_fails_witness :
  run_command sample_host (Some "rm") ["a.txt"] sample_state =
    (Prompted, echoed (with_disk (delete "/home/u/a.txt" (disk sample_state)) sample_state)) /\
  run_command sample_host (Some "rm") ["sub"] sample_state = (Prompted, failed sample_state).
Proof.
  split.
  - exact (rm_deletes_file_or_fails sample_host "a.txt" [] sample_state
             "/home/u/a.txt" eq_refl).
  - exact (rm_deletes_file_or_fails sample_host "sub" [] sample_state
             "/home/u/sub" eq_refl).
Defined.

Lemma mkdir_creates_or_fails_witness :
  run_command sample_host (Some "mkdir") ["new"] sample_state =
    (Prompted, echoed (with_disk (<["/home/u/new" := Dir]> (disk sample_state)) sample_state)) /\
  run_command sample_host (Some "mkdir") ["sub"] sample_state = (Prompted, failed sample_state).
Proof.
  split.
  - exact (mkdir_creates_or_fails sample_host "new" [] sample_state "/home/u/new" eq_refl).
  - exact (mkdir_creates_or_fails sample_host "sub" [] sample_state "/home/u/sub" eq_refl).
Defined.

Lemma mkdir_then_cd_enters_witness :
  exists st1,
    run_command sample_host (Some "mkdir") ["new"] sample_state = (Prompted, st1) /\
    run_command sample_host (Some "cd") ["new"] st1 =
      (Prompted, echoed (with_cursor "/home/u/new" st1)).
Proof.
  apply (mkdir_then_cd_enters sample_host "new" sample_state "/home/u/new");
    reflexivity.
Defined.

Lemma add_then_rm_restores_witness :
  exists st1,
    st1 = echoed (with_disk (<["/home/u/f.txt" := File ""]> (disk sample_state))
                    sample_state) /\
    run_command sample_host (Some "add") ["f.txt"] sample_state = (Prompted, st1) /\
    run_command sample_host (Some "rm") ["f.txt"] st1 =
      (Prompted, echoed (with_disk (disk sample_state) st1)).
Proof.
  apply (add_then_rm_restores sample_host "f.txt" sample_state "/home/u/f.txt");
    reflexivity.
Defined.

Lemma mv_moves_file_witness :
  run_command sample_host (Some "mv") ["a.txt"; "sub"] sample_state =
    (Prompted,
     echoed (with_disk (delete "/home/u/a.txt"
                          (<["/home/u/sub/a.txt" := File "hi"]> (disk sample_state)))
               sample_state)).
Proof.
  apply (mv_moves_file sample_host "a.txt" "sub" [] sample_state
           "/home/u/a.txt" "/home/u/sub/a.txt" "hi");
    try reflexivity; vm_compute; discriminate.
Defined.

Lemma same_file_target_loses_bytes_witness :
  run_command sample_host (Some "cp") ["a.txt"; "."] sample_state =
    (Prompted,
     echoed (with_disk (<["/home/u/a.txt" := File ""]> (disk sample_state)) sample_state)) /\
  run_command sample_host (Some "mv") ["a.txt"; "."] sample_state =
    (Prompted, echoed (with_disk (delete "/home/u/a.txt" (disk sample_state)) sample_state)).
Proof.
  apply (same_file_target_loses_bytes sample_host "a.txt" "." [] sample_state
           "/home/u/a.txt" "hi"); reflexivity.
Defined.

Lemma unwritable_target_fails_witness :
  run_command sample_host (Some "mv") ["a.txt"; "nodir"] sample_state =
    (Prompted, failed sample_state).
Proof.
  apply (unwritable_target_fails sample_host "mv" "a.txt" "nodir" [] sample_state
           "/home/u/a.txt" "/home/u/nodir/a.txt" "hi");
    try reflexivity. right. reflexivity.
Defined.

Lemma cat_and_hash_read_or_fail_witness :
  run_command sample_host (Some "cat") ["a.txt"] sample_state =
    (Prompted, echoed (printed (Stdout "hi") sample_state)) /\
  run_command sample_host (Some "hash") ["ghost"] sample_state =
    (Prompted, failed sample_state).
Proof.
  split.
  - exact (proj1 (cat_and_hash_read_or_fail sample_host "a.txt" [] sample_state
                    "/home/u/a.txt" eq_refl)).
  - exact (proj2 (cat_and_hash_read_or_fail sample_host "ghost" [] sample_state
                    "/home/u/ghost" eq_refl)).
Defined.

Lemma compress_then_decompress_restores_witness :
  exists st1 st2,
    run_command sample_host (Some "compress") ["a.txt"; "a.br"] sample_state
    = (Prompted, st1) /\
    run_command sample_host (Some "decompress") ["a.br"; "sub/b.txt"] st1
    = (Prompted, st2) /\
    disk st2 = <["/home/u/sub/b.txt" := File "hi"]>
                 (<["/home/u/a.br" := File (brotliCompress sample_host "hi")]>
                    (disk sample_state)).
Proof.
  apply (compress_then_decompress_restores sample_host "a.txt" "a.br" "sub/b.txt"
           sample_state "/home/u/a.txt" "/home/u/a.br" "/home/u/sub/b.txt" "hi");
    try reflexivity; vm_compute; discriminate.
Defined.

Lemma ls_lists_entries_in_order_witness :
  exists items rows,
    Fs.readdirSync (disk sample_state) (currentDir sample_state) = Some items /\
    run_command sample_host (Some "ls") [] sample_state =
      (Prompted, echoed (printed (Table rows) sample_state)) /\
    Permutation rows (map row_of items) /\
    ordered (fun a b => localeCompare sample_host (fst a) (fst b)) rows.
Proof.
  pose proof (ls_lists_entries_in_order sample_host [] sample_state) as H.
  destruct (Fs.readdirSync (disk sample_state) (currentDir sample_state))
    as [items|] eqn:E; [|discriminate E].
  destruct H as (rows & Hrun & Hperm & Hord).
  exists items, rows. repeat split; try assumption.
  apply Hord. intros a b. apply String.compare_antisym.
Defined.

Lemma os_reports_witness :
  run_command sample_host (Some "os") ["--eol"] sample_state =
    (Prompted, echoed (printed (Log "Invalid input") sample_state)).
Proof.
  apply (proj1 (os_reports sample_host [] sample_state)).
  simpl. intros H. repeat destruct H as [H|H]; try discriminate H. exact H.
Defined.

Lemma parseInput_reads_back_arguments_witness :
  Tokenizer.parseInput
    (JS.join " " (map written [Bare "cp"; InQuotes "my file.txt"; Bare "dest"]))
  = Some ["cp"; "my file.txt"; "dest"].
Proof.
  apply (parseInput_reads_back_arguments
           [Bare "cp"; InQuotes "my file.txt"; Bare "dest"]);
    [discriminate | reflexivity].
Defined.

Lemma up_goes_to_parent_witness :
  run_command sample_host (Some "up") [] sample_state =
    (Prompted, echoed (with_cursor "/home" sample_state)).
Proof.
  apply (proj2 (up_goes_to_parent sample_host [] sample_state "/home" eq_refl) "u");
    reflexivity.
Defined.

Lemma session_cursor_canonical_witness :
  canonical (currentDir (snd (session sample_host ["cd sub/../.."; "up"; "cd u//sub/"]
                                 (startup sample_host sample_disk)))) = true /\
  Path.is_absolute
    (currentDir (snd (session sample_host ["cd sub/../.."; "up"; "cd u//sub/"]
                        (startup sample_host sample_disk)))) = true.
Proof. apply session_cursor_canonical. reflexivity. Defined.

Lemma cd_down_then_up_returns_witness :
  currentDir (run_commands sample_host
                (map (fun d => ("cd", [d])) ["u"; "sub"] ++
                 repeat ("up", []) (length ["u"; "sub"]))
                (after "up" sample_state))
  = currentDir (after "up" sample_state) /\
  disk (run_commands sample_host
          (map (fun d => ("cd", [d])) ["u"; "sub"] ++
           repeat ("up", []) (length ["u"; "sub"]))
          (after "up" sample_state))
  = disk (after "up" sample_state).
Proof.
  apply (cd_down_then_up_returns sample_host ["u"; "sub"] (after "up" sample_state));
    [reflexivity | vm_compute; tauto].
Defined.

Lemma rn_stays_in_directory_witness :
  run_command sample_host (Some "rn") ["sub/x"; "y"] sample_state =
    (Prompted,
     echoed (with_disk
               (<[child (Path.dirname "/home/u/sub/x") "y" := File "x"]>
                  (delete "/home/u/sub/x" (disk sample_state)))
               sample_state)) /\
  Path.dirname (child (Path.dirname "/home/u/sub/x") "y") = Path.dirname "/home/u/sub/x".
Proof.
  apply (rn_stays_in_directory sample_host "sub/x" "y" [] sample_state
           "/home/u/sub/x" "x");
    try reflexivity. vm_compute. discriminate.
Defined.

Lemma unreadable_source_ends_process_witness :
  run_command sample_host (Some "cp") ["sub"; "."] sample_state =
    (Crashed, failed sample_state) /\
  run_command sample_host (Some "compress") ["ghost"; "out"] sample_state =
    (Crashed, with_disk (<["/home/u/out" := File ""]> (disk sample_state)) sample_state) /\
  run_command (write_first sample_host) (Some "mv") ["ghost"; "nodir"] sample_state =
    (Crashed, failed sample_state).
Proof.
  split; [|split].
  - destruct (unreadable_source_ends_process sample_host "cp" "sub" "." []
                sample_state "/home/u/sub" "/home/u/sub")
      as (_ & _ & H & _);
      [simpl; tauto | reflexivity | reflexivity | reflexivity
      | intros E; vm_compute in E; discriminate E |].
    apply H; reflexivity.
  - destruct (unreadable_source_ends_process sample_host "compress" "ghost" "out" []
                sample_state "/home/u/ghost" "/home/u/out")
      as (_ & H & _);
      [simpl; tauto | reflexivity | reflexivity | reflexivity
      | intros _; discriminate |].
    apply H. reflexivity.
  - destruct (unreadable_source_ends_process (write_first sample_host) "mv" "ghost"
                "nodir" [] sample_state "/home/u/ghost" "/home/u/nodir/ghost")
      as (_ & _ & _ & H);
      [simpl; tauto | reflexivity | reflexivity | reflexivity
      | intros _; discriminate |].
    apply H; reflexivity.
Defined.


Lemma untokenizable_iff_lone_quote_witness :
  Tokenizer.parseInput (JS.trim (" " +:+ lone_quote +:+ " ")) = None <->
  JS.trim (" " +:+ lone_quote +:+ " ") = lone_quote.
Proof. apply untokenizable_iff_lone_quote. discriminate. Defined.
